(** * Vue reactivity core: the reactive-wrapper factory of [reactive.ts]

    A shallow embedding of [packages/reactivity/src/reactive.ts] and of the
    [ReactiveFlags] enum of [constants.ts].  The JavaScript heap is explicit:
    objects live at locations, a [Proxy] is a heap object that records its
    [[ProxyTarget]] and its handler, and the four module-level [WeakMap]s are
    finite maps keyed by location (object identity).  A property read on
    [undefined] or [null] is a [TypeError], so that the guards of the source
    ([value && value[key]], [isObject(target)]) carry real content. *)

From Stdlib Require Import ZArith Lia.
From stdpp Require Import base option gmap strings list.

Local Open Scope string_scope.
Local Open Scope nat_scope.

(** ** Values and completions *)

Abbreviation loc := nat.

(** JavaScript values: the primitives the core can tell apart, and references
    to heap objects (plain objects, arrays, collections, functions, proxies).
    Numbers are kept to the integers. *)
Inductive Value :=
| VUndefined
| VNull
| VBool (b : bool)
| VNum (n : Z)
| VStr (s : string)
| VRef (a : loc).

#[global] Instance Value_eq_dec : EqDecision Value.
Proof. solve_decision. Defined.

(** ToBoolean *)
Definition truthy (v : Value) : bool :=
  match v with
  | VUndefined | VNull => false
  | VBool b => b
  | VNum n => negb (n =? 0)%Z
  | VStr s => negb (String.eqb s "")
  | VRef _ => true
  end.

Inductive JsError := TypeError.

(** A completion: the evaluation of an expression either yields a value or
    throws. *)
Inductive Completion (A : Type) :=
| Normal (a : A)
| Throw (e : JsError).
Arguments Normal {A} a.
Arguments Throw {A} e.

#[global] Instance Completion_ret : MRet Completion := @Normal.
#[global] Instance Completion_bind : MBind Completion :=
  λ A B f m, match m with Normal a => f a | Throw e => Throw e end.

(** ** constants.ts *)

Module ReactiveFlags.
Definition SKIP := "__v_skip".
Definition IS_REACTIVE := "__v_isReactive".
Definition IS_READONLY := "__v_isReadonly".
Definition IS_SHALLOW := "__v_isShallow".
Definition RAW := "__v_raw".
Definition IS_REF := "__v_isRef".
End ReactiveFlags.
Import ReactiveFlags.

(** ** The interception layer (baseHandlers.ts, collectionHandlers.ts) *)

(** The eight handler objects imported by reactive.ts. *)
Inductive ProxyHandler :=
| mutableHandlers
| readonlyHandlers
| shallowReactiveHandlers
| shallowReadonlyHandlers
| mutableCollectionHandlers
| readonlyCollectionHandlers
| shallowCollectionHandlers
| shallowReadonlyCollectionHandlers.

#[global] Instance ProxyHandler_eq_dec : EqDecision ProxyHandler.
Proof. solve_decision. Defined.

Definition handlerReadonly (hd : ProxyHandler) : bool :=
  match hd with
  | readonlyHandlers | shallowReadonlyHandlers
  | readonlyCollectionHandlers | shallowReadonlyCollectionHandlers => true
  | _ => false
  end.

Definition handlerShallow (hd : ProxyHandler) : bool :=
  match hd with
  | shallowReactiveHandlers | shallowReadonlyHandlers
  | shallowCollectionHandlers | shallowReadonlyCollectionHandlers => true
  | _ => false
  end.

(** Modelled from the spec: the [get] trap of the handlers, which live in
    baseHandlers.ts and collectionHandlers.ts.  A wrapper answers the reserved
    keys itself: is-reactive is true iff its mode is non-readonly, is-readonly
    iff its mode is readonly, is-shallow iff its mode is shallow, and raw
    yields the directly wrapped value when read through the wrapper.  The flags
    are not stored as own fields, so every other key (the skip flag among
    them) is answered from the target; [fromTarget] is that answer. *)
Definition trapGet (hd : ProxyHandler) (target : loc) (key : string)
    (fromTarget : Value) : Value :=
  if String.eqb key IS_REACTIVE then VBool (negb (handlerReadonly hd))
  else if String.eqb key IS_READONLY then VBool (handlerReadonly hd)
  else if String.eqb key IS_SHALLOW then VBool (handlerShallow hd)
  else if String.eqb key RAW then VRef target
  else fromTarget.

(** ** The heap *)

(** An ordinary (non-proxy) object: the tag that [Object.prototype.toString]
    reports, whether it is callable ([typeof] is "function"), its
    [[Extensible]] slot and its own data properties.  The built-in prototypes
    define none of the reserved keys, so a read of a reserved key finds an own
    property or nothing. *)
Record PlainObject := {
  rawType : string;
  callable : bool;
  extensible : bool;
  props : gmap string Value
}.

Inductive HeapObject :=
| Ordinary (o : PlainObject)
| ProxyObj (target : loc) (handler : ProxyHandler).

(** Newest object first; the object at the head of [o :: older] lives at
    location [length older].  A proxy is created over an object that already
    exists, so its target is looked up among the older objects only. *)
Definition Heap := list HeapObject.

Fixpoint objAt (h : Heap) (a : loc) : option HeapObject :=
  match h with
  | [] => None
  | o :: older => if Nat.eqb a (length older) then Some o else objAt older a
  end.

(** The ordinary object at the bottom of the proxy chain that starts at [a].
    The operations for which the handlers define no trap ([isExtensible],
    [getOwnPropertyDescriptor], [defineProperty]) reach it unchanged. *)
Fixpoint ordinaryOf (h : Heap) (a : loc) : option (loc * PlainObject) :=
  match h with
  | [] => None
  | o :: older =>
      if Nat.eqb a (length older) then
        match o with
        | Ordinary p => Some (a, p)
        | ProxyObj t _ => ordinaryOf older t
        end
      else ordinaryOf older a
  end.

(** [obj[key]] for an object reference. *)
Fixpoint getProp (h : Heap) (a : loc) (key : string) : Value :=
  match h with
  | [] => VUndefined
  | o :: older =>
      if Nat.eqb a (length older) then
        match o with
        | Ordinary p => default VUndefined (props p !! key)
        | ProxyObj t hd => trapGet hd t key (getProp older t key)
        end
      else getProp older a key
  end.

Definition withProp (p : PlainObject) (key : string) (v : Value) : PlainObject :=
  {| rawType := rawType p; callable := callable p; extensible := extensible p;
     props := <[key := v]> (props p) |}.

(** [Object.defineProperty(obj, key, {value})] on the heap: a proxy without a
    [defineProperty] trap hands the definition to its target. *)
Fixpoint defineOwn (h : Heap) (a : loc) (key : string) (v : Value) : Heap :=
  match h with
  | [] => []
  | o :: older =>
      if Nat.eqb a (length older) then
        match o with
        | Ordinary p => Ordinary (withProp p key v) :: older
        | ProxyObj t _ => o :: defineOwn older t key v
        end
      else o :: defineOwn older a key v
  end.

(** ** Module state of reactive.ts *)

Record State := {
  heap : Heap;
  reactiveMap : gmap loc loc;
  shallowReactiveMap : gmap loc loc;
  readonlyMap : gmap loc loc;
  shallowReadonlyMap : gmap loc loc
}.

(** Which of the four module-level WeakMaps a caller passes as [proxyMap]. *)
Inductive ProxyMap :=
| ReactiveMap
| ShallowReactiveMap
| ReadonlyMap
| ShallowReadonlyMap.

#[global] Instance ProxyMap_eq_dec : EqDecision ProxyMap.
Proof. solve_decision. Defined.

Definition weakMap (st : State) (m : ProxyMap) : gmap loc loc :=
  match m with
  | ReactiveMap => reactiveMap st
  | ShallowReactiveMap => shallowReactiveMap st
  | ReadonlyMap => readonlyMap st
  | ShallowReadonlyMap => shallowReadonlyMap st
  end.

(** [proxyMap.get(key)]: a key that is not an object is never present. *)
Definition weakMapGet (st : State) (m : ProxyMap) (key : Value) : option loc :=
  match key with
  | VRef a => weakMap st m !! a
  | _ => None
  end.

Definition withWeakMap (st : State) (m : ProxyMap) (w : gmap loc loc) : State :=
  match m with
  | ReactiveMap =>
      {| heap := heap st; reactiveMap := w;
         shallowReactiveMap := shallowReactiveMap st;
         readonlyMap := readonlyMap st;
         shallowReadonlyMap := shallowReadonlyMap st |}
  | ShallowReactiveMap =>
      {| heap := heap st; reactiveMap := reactiveMap st;
         shallowReactiveMap := w;
         readonlyMap := readonlyMap st;
         shallowReadonlyMap := shallowReadonlyMap st |}
  | ReadonlyMap =>
      {| heap := heap st; reactiveMap := reactiveMap st;
         shallowReactiveMap := shallowReactiveMap st;
         readonlyMap := w;
         shallowReadonlyMap := shallowReadonlyMap st |}
  | ShallowReadonlyMap =>
      {| heap := heap st; reactiveMap := reactiveMap st;
         shallowReactiveMap := shallowReactiveMap st;
         readonlyMap := readonlyMap st;
         shallowReadonlyMap := w |}
  end.

(** [proxyMap.set(key, value)]: a WeakMap refuses a key that is not an
    object. *)
Definition weakMapSet (st : State) (m : ProxyMap) (key : Value) (p : loc)
    : Completion State :=
  match key with
  | VRef a => Normal (withWeakMap st m (<[a := p]> (weakMap st m)))
  | _ => Throw TypeError
  end.

Definition withHeap (st : State) (h : Heap) : State :=
  {| heap := h; reactiveMap := reactiveMap st;
     shallowReactiveMap := shallowReactiveMap st;
     readonlyMap := readonlyMap st;
     shallowReadonlyMap := shallowReadonlyMap st |}.

(** [new Proxy(target, handler)]: the fresh proxy gets the next location; a
    target that is not an object is a TypeError. *)
Definition newProxy (st : State) (target : Value) (hd : ProxyHandler)
    : Completion (loc * State) :=
  match target with
  | VRef a =>
      match objAt (heap st) a with
      | Some _ => Normal (length (heap st), withHeap st (ProxyObj a hd :: heap st))
      | None => Throw TypeError
      end
  | _ => Throw TypeError
  end.

(** ** Host operations and the helpers of @vue/shared *)

(** [value[key]] *)
Definition getV (st : State) (value : Value) (key : string) : Completion Value :=
  match value with
  | VUndefined | VNull => Throw TypeError
  | VRef a => Normal (getProp (heap st) a key)
  | _ => Normal VUndefined
  end.

(** [value && value[key]] *)
Definition andGet (st : State) (value : Value) (key : string) : Completion Value :=
  if truthy value then getV st value key else Normal value.

(** [Object.isExtensible(value)]: false for a value that is not an object. *)
Definition isExtensible (st : State) (value : Value) : bool :=
  match value with
  | VRef a =>
      match ordinaryOf (heap st) a with
      | Some (_, p) => extensible p
      | None => false
      end
  | _ => false
  end.

(** Modelled from the spec: [isObject] of @vue/shared, the test for an
    object-like value: a reference to an object that is not a function. *)
Definition isObject (st : State) (val : Value) : bool :=
  match val with
  | VRef a =>
      match ordinaryOf (heap st) a with
      | Some (_, p) => negb (callable p)
      | None => false
      end
  | _ => false
  end.

(** Modelled from the spec: [toRawType] of @vue/shared, the structural kind of
    a value, which is the tag in [Object.prototype.toString.call(value)].  A
    wrapper reports the kind of what it wraps. *)
Definition toRawType (st : State) (value : Value) : string :=
  match value with
  | VUndefined => "Undefined"
  | VNull => "Null"
  | VBool _ => "Boolean"
  | VNum _ => "Number"
  | VStr _ => "String"
  | VRef a =>
      match ordinaryOf (heap st) a with
      | Some (_, p) => rawType p
      | None => "Undefined"
      end
  end.

(** Modelled from the spec: [hasOwn] of @vue/shared, the own-property check
    [Object.prototype.hasOwnProperty.call(val, key)]. *)
Definition hasOwn (st : State) (val : Value) (key : string) : Completion bool :=
  match val with
  | VUndefined | VNull => Throw TypeError
  | VRef a =>
      match ordinaryOf (heap st) a with
      | Some (_, p) => Normal (bool_decide (is_Some (props p !! key)))
      | None => Normal false
      end
  | _ => Normal false
  end.

(** Modelled from the spec: [def] of @vue/shared, which sets [key] on [obj]
    with [Object.defineProperty].  Defining a new property on an object that
    is not extensible, or on a value that is not an object, is a TypeError. *)
Definition def (st : State) (obj : Value) (key : string) (v : Value)
    : Completion State :=
  match obj with
  | VRef a =>
      match ordinaryOf (heap st) a with
      | Some (_, p) =>
          if extensible p || bool_decide (is_Some (props p !! key))
          then Normal (withHeap st (defineOwn (heap st) a key v))
          else Throw TypeError
      | None => Throw TypeError
      end
  | _ => Throw TypeError
  end.

(** ** reactive.ts *)

Inductive TargetType :=
| INVALID
| COMMON
| COLLECTION.

#[global] Instance TargetType_eq_dec : EqDecision TargetType.
Proof. solve_decision. Defined.

Definition targetTypeMap (rawType : string) : TargetType :=
  if String.eqb rawType "Object" || String.eqb rawType "Array" then COMMON
  else if String.eqb rawType "Map" || String.eqb rawType "Set"
          || String.eqb rawType "WeakMap" || String.eqb rawType "WeakSet"
  then COLLECTION
  else INVALID.

Definition getTargetType (st : State) (value : Value) : Completion TargetType :=
  skip ← getV st value SKIP;
  mret (if truthy skip || negb (isExtensible st value)
        then INVALID
        else targetTypeMap (toRawType st value)).

(** The diagnostic of the development build writes to the console only and is
    not part of the state. *)
Definition createReactiveObject (st : State) (target : Value) (isReadonly : bool)
    (baseHandlers collectionHandlers : ProxyHandler) (proxyMap : ProxyMap)
    : Completion (Value * State) :=
  if negb (isObject st target) then mret (target, st)
  else
    raw ← getV st target RAW;
    isProxyAlready ←
      (if truthy raw then
         if isReadonly then
           r ← getV st target IS_REACTIVE; mret (negb (truthy r))
         else mret true
       else mret false);
    if isProxyAlready : bool then mret (target, st)
    else
      match weakMapGet st proxyMap target with
      | Some existingProxy => mret (VRef existingProxy, st)
      | None =>
          targetType ← getTargetType st target;
          if bool_decide (targetType = INVALID) then mret (target, st)
          else
            '(proxy, st1) ← newProxy st target
                (if bool_decide (targetType = COLLECTION)
                 then collectionHandlers else baseHandlers);
            st2 ← weakMapSet st1 proxyMap target proxy;
            mret (VRef proxy, st2)
      end.

Definition isReadonly (st : State) (value : Value) : Completion bool :=
  r ← andGet st value IS_READONLY; mret (truthy r).

Definition isShallow (st : State) (value : Value) : Completion bool :=
  r ← andGet st value IS_SHALLOW; mret (truthy r).

Definition isProxy (st : State) (value : Value) : Completion bool :=
  if truthy value then r ← getV st value RAW; mret (truthy r) else mret false.

(** [isReactive] calls itself on the raw value of a readonly one; [fuel]
    bounds the depth of the calls and [None] means that it ran out. *)
Fixpoint isReactive (fuel : nat) (st : State) (value : Value)
    : option (Completion bool) :=
  match fuel with
  | 0 => None
  | S fuel' =>
      match isReadonly st value with
      | Throw e => Some (Throw e)
      | Normal true =>
          match getV st value RAW with
          | Throw e => Some (Throw e)
          | Normal raw => isReactive fuel' st raw
          end
      | Normal false =>
          Some (r ← andGet st value IS_REACTIVE; mret (truthy r))
      end
  end.

(** [toRaw] likewise calls itself on the raw value. *)
Fixpoint toRaw (fuel : nat) (st : State) (observed : Value)
    : option (Completion Value) :=
  match fuel with
  | 0 => None
  | S fuel' =>
      match andGet st observed RAW with
      | Throw e => Some (Throw e)
      | Normal raw => if truthy raw then toRaw fuel' st raw else Some (Normal observed)
      end
  end.

Definition reactive (st : State) (target : Value) : Completion (Value * State) :=
  ro ← isReadonly st target;
  if ro : bool then mret (target, st)
  else createReactiveObject st target false
         mutableHandlers mutableCollectionHandlers ReactiveMap.

Definition shallowReactive (st : State) (target : Value) : Completion (Value * State) :=
  createReactiveObject st target false
    shallowReactiveHandlers shallowCollectionHandlers ShallowReactiveMap.

Definition readonly (st : State) (target : Value) : Completion (Value * State) :=
  createReactiveObject st target true
    readonlyHandlers readonlyCollectionHandlers ReadonlyMap.

Definition shallowReadonly (st : State) (target : Value) : Completion (Value * State) :=
  createReactiveObject st target true
    shallowReadonlyHandlers shallowReadonlyCollectionHandlers ShallowReadonlyMap.

Definition markRaw (st : State) (value : Value) : Completion (Value * State) :=
  own ← hasOwn st value SKIP;
  if negb own && isExtensible st value then
    st1 ← def st value SKIP (VBool true); mret (value, st1)
  else mret (value, st).

Definition toReactive (st : State) (value : Value) : Completion (Value * State) :=
  if isObject st value then reactive st value else mret (value, st).

Definition toReadonly (st : State) (value : Value) : Completion (Value * State) :=
  if isObject st value then readonly st value else mret (value, st).

(** The four modes, and the public constructor of each. *)
Inductive Mode :=
| MutableDeep
| MutableShallow
| ReadonlyDeep
| ReadonlyShallow.

Definition wrap (m : Mode) (st : State) (target : Value) : Completion (Value * State) :=
  match m with
  | MutableDeep => reactive st target
  | MutableShallow => shallowReactive st target
  | ReadonlyDeep => readonly st target
  | ReadonlyShallow => shallowReadonly st target
  end.

Definition modeReadonly (m : Mode) : bool :=
  match m with
  | ReadonlyDeep | ReadonlyShallow => true
  | _ => false
  end.

Definition modeShallow (m : Mode) : bool :=
  match m with
  | MutableShallow | ReadonlyShallow => true
  | _ => false
  end.

Definition modeMap (m : Mode) : ProxyMap :=
  match m with
  | MutableDeep => ReactiveMap
  | MutableShallow => ShallowReactiveMap
  | ReadonlyDeep => ReadonlyMap
  | ReadonlyShallow => ShallowReadonlyMap
  end.

Definition modeBaseHandlers (m : Mode) : ProxyHandler :=
  match m with
  | MutableDeep => mutableHandlers
  | MutableShallow => shallowReactiveHandlers
  | ReadonlyDeep => readonlyHandlers
  | ReadonlyShallow => shallowReadonlyHandlers
  end.

Definition modeCollectionHandlers (m : Mode) : ProxyHandler :=
  match m with
  | MutableDeep => mutableCollectionHandlers
  | MutableShallow => shallowCollectionHandlers
  | ReadonlyDeep => readonlyCollectionHandlers
  | ReadonlyShallow => shallowReadonlyCollectionHandlers
  end.

(** The factory call that the constructor of mode [m] makes. *)
Definition factory (m : Mode) (st : State) (target : Value) : Completion (Value * State) :=
  createReactiveObject st target (modeReadonly m)
    (modeBaseHandlers m) (modeCollectionHandlers m) (modeMap m).

(** ** Building states *)

Definition emptyState : State :=
  {| heap := []; reactiveMap := ∅; shallowReactiveMap := ∅;
     readonlyMap := ∅; shallowReadonlyMap := ∅ |}.

(** An object literal or a [new X()]: an extensible, non-callable ordinary
    object with the given tag and own properties. *)
Definition object (tag : string) (fields : list (string * Value)) : HeapObject :=
  Ordinary {| rawType := tag; callable := false; extensible := true;
              props := list_to_map fields |}.

(** The same after [Object.freeze] or [Object.preventExtensions]. *)
Definition frozenObject (tag : string) (fields : list (string * Value)) : HeapObject :=
  Ordinary {| rawType := tag; callable := false; extensible := false;
              props := list_to_map fields |}.

(** A function object. *)
Definition function (fields : list (string * Value)) : HeapObject :=
  Ordinary {| rawType := "Function"; callable := true; extensible := true;
              props := list_to_map fields |}.

(** Allocation of a fresh object by the caller. *)
Definition alloc (st : State) (o : HeapObject) : loc * State :=
  (length (heap st), withHeap st (o :: heap st)).

(** ** Vocabulary of the properties, and the states used as examples *)

(** The target is not already a wrapper, or readonly is asked over a
    mutable-reactive one: the factory goes on to the registry. *)
Definition proceeds (st : State) (a : loc) (isReadonly : bool) : Prop :=
  truthy (getProp (heap st) a RAW) = false
  ∨ (isReadonly = true ∧ truthy (getProp (heap st) a IS_REACTIVE) = true).

(** The state after a fresh proxy over [target] was built and registered. *)
Definition registered (st : State) (target : loc) (hd : ProxyHandler) (pm : ProxyMap) : State :=
  withWeakMap (withHeap st (ProxyObj target hd :: heap st)) pm
    (<[target := length (heap st)]> (weakMap st pm)).

(** The five ways a call of the factory ends, with the result and the state
    after it: the target is not object-like; it is a wrapper already; the
    registry has a wrapper for it; the classifier rejects it; a fresh proxy is
    built and registered. *)
Inductive FactoryOutcome (st : State) (target : Value) (isReadonly : bool)
    (bh ch : ProxyHandler) (pm : ProxyMap) : Value → State → Prop :=
| fo_not_object :
    isObject st target = false →
    FactoryOutcome st target isReadonly bh ch pm target st
| fo_is_proxy a :
    target = VRef a → isObject st target = true →
    truthy (getProp (heap st) a RAW) = true →
    (isReadonly = false ∨ truthy (getProp (heap st) a IS_REACTIVE) = false) →
    FactoryOutcome st target isReadonly bh ch pm target st
| fo_existing a existingProxy :
    target = VRef a → isObject st target = true →
    proceeds st a isReadonly →
    weakMap st pm !! a = Some existingProxy →
    FactoryOutcome st target isReadonly bh ch pm (VRef existingProxy) st
| fo_invalid a :
    target = VRef a → isObject st target = true →
    proceeds st a isReadonly →
    weakMap st pm !! a = None →
    getTargetType st target = Normal INVALID →
    FactoryOutcome st target isReadonly bh ch pm target st
| fo_new a targetType :
    target = VRef a → isObject st target = true →
    proceeds st a isReadonly →
    weakMap st pm !! a = None →
    getTargetType st target = Normal targetType →
    targetType ≠ INVALID →
    FactoryOutcome st target isReadonly bh ch pm
      (VRef (length (heap st)))
      (registered st a (if bool_decide (targetType = COLLECTION) then ch else bh) pm).

(** [carries st v key]: reading the reserved key on [v] gives a truthy
    answer.  Only objects carry flags. *)
Definition carries (st : State) (v : Value) (key : string) : bool :=
  match v with
  | VRef a => truthy (getProp (heap st) a key)
  | _ => false
  end.

(** The registry that records the wrappers built with a handler. *)
Definition handlerMap (hd : ProxyHandler) : ProxyMap :=
  match hd with
  | mutableHandlers | mutableCollectionHandlers => ReactiveMap
  | shallowReactiveHandlers | shallowCollectionHandlers => ShallowReactiveMap
  | readonlyHandlers | readonlyCollectionHandlers => ReadonlyMap
  | shallowReadonlyHandlers | shallowReadonlyCollectionHandlers => ShallowReadonlyMap
  end.

(** Every registry entry maps a target to a proxy over that very target,
    built after it with a handler of the registry's mode.  The factory is the
    only writer of the registries and keeps this. *)
Definition registry_ok (st : State) : Prop :=
  ∀ pm k p, weakMap st pm !! k = Some p →
    ∃ hd, objAt (heap st) p = Some (ProxyObj k hd) ∧ handlerMap hd = pm ∧ k < p.

(** [x] is an object the classifier accepts and that carries neither the raw
    nor the readonly flag: wrapping it yields a wrapper. *)
Definition eligible (st : State) (x : Value) : Prop :=
  isObject st x = true
  ∧ getTargetType st x ≠ Normal INVALID
  ∧ carries st x RAW = false
  ∧ carries st x IS_READONLY = false.

(** [w] is a wrapper of mode [m] built directly over the object at [a]. *)
Definition wrapperOf (st : State) (m : Mode) (a : loc) (w : Value) : Prop :=
  ∃ p hd, w = VRef p ∧ p ≠ a
          ∧ objAt (heap st) p = Some (ProxyObj a hd)
          ∧ handlerMap hd = modeMap m.

(** A state with one plain object [{count: 0}] at location 0. *)
Definition counterState : State := (alloc emptyState (object "Object" [("count", VNum 0)])).2.

(** The state after [reactive({count: 0})]: the object at 0, its reactive
    proxy at 1. *)
Definition reactiveCounterState : State :=
  registered counterState 0 mutableHandlers ReactiveMap.

(** Two plain objects that were never wrapped: [{__v_raw: true}] and
    [{__v_isReadonly: true}]. *)
Definition spoofedRaw : PlainObject :=
  {| rawType := "Object"; callable := false; extensible := true;
     props := {[ RAW := VBool true ]} |}.

Definition spoofedReadonly : PlainObject :=
  {| rawType := "Object"; callable := false; extensible := true;
     props := {[ IS_READONLY := VBool true ]} |}.

(** The first at location 0, the second at location 1. *)
Definition spoofState : State :=
  (alloc (alloc emptyState (Ordinary spoofedRaw)).2 (Ordinary spoofedReadonly)).2.

(** A value of the program: a primitive, or a reference to an object of the
    heap. *)
Definition valid (st : State) (v : Value) : Prop :=
  match v with
  | VRef a => a < length (heap st)
  | _ => True
  end.

(** [RawChain st v r]: following the raw flag from [v] ends at [r], which
    carries no raw flag: [r] is the unwrapped ancestor of [v]. *)
Inductive RawChain (st : State) : Value → Value → Prop :=
| rc_end v :
    valid st v → carries st v RAW = false → RawChain st v v
| rc_step a r :
    truthy (getProp (heap st) a RAW) = true →
    RawChain st (getProp (heap st) a RAW) r →
    RawChain st (VRef a) r.

(** [o = {}; o.__v_raw = o]: a plain object whose raw flag is itself. *)
Definition selfRaw : PlainObject :=
  {| rawType := "Object"; callable := false; extensible := true;
     props := {[ RAW := VRef 0 ]} |}.

Definition selfRawState : State := (alloc emptyState (Ordinary selfRaw)).2.

(** The calls into the core that can change its state. *)
Inductive Call :=
| CallWrap (m : Mode) (v : Value)
| CallMarkRaw (v : Value)
| CallToReactive (v : Value)
| CallToReadonly (v : Value).

Definition exec (c : Call) (st : State) : Completion (Value * State) :=
  match c with
  | CallWrap m v => wrap m st v
  | CallMarkRaw v => markRaw st v
  | CallToReactive v => toReactive st v
  | CallToReadonly v => toReadonly st v
  end.

(** A call that throws leaves the state as it was. *)
Definition step (st : State) (c : Call) : State :=
  match exec c st with
  | Normal (_, st') => st'
  | Throw _ => st
  end.

Definition run (calls : list Call) (st : State) : State := foldl step st calls.

(** The object at [a] has opted out: it exists, it carries the skip flag or is
    not extensible, and no registry has an entry for it. *)
Definition optedOut (st : State) (a : loc) : Prop :=
  a < length (heap st)
  ∧ (carries st (VRef a) SKIP = true ∨ isExtensible st (VRef a) = false)
  ∧ ∀ pm, weakMap st pm !! a = None.

(** Nothing the core does gives an object the is-reactive or the is-readonly
    flag. *)
Definition unflagged (st : State) (a : loc) : Prop :=
  a < length (heap st)
  ∧ carries st (VRef a) IS_REACTIVE = false
  ∧ carries st (VRef a) IS_READONLY = false.

(** [{__v_skip: false}] at location 0. *)
Definition falsySkip : PlainObject :=
  {| rawType := "Object"; callable := false; extensible := true;
     props := {[ SKIP := VBool false ]} |}.

Definition falsySkipState : State := (alloc emptyState (Ordinary falsySkip)).2.

(** [Object.preventExtensions(obj)], which [Object.freeze] and [Object.seal]
    perform: a proxy without a trap for it hands it to its target. *)
Fixpoint preventExtensionsAt (h : Heap) (a : loc) : Heap :=
  match h with
  | [] => []
  | o :: older =>
      if Nat.eqb a (length older) then
        match o with
        | Ordinary p =>
            Ordinary {| rawType := rawType p; callable := callable p;
                        extensible := false; props := props p |} :: older
        | ProxyObj t _ => o :: preventExtensionsAt older t
        end
      else o :: preventExtensionsAt older a
  end.

Definition freeze (st : State) (a : loc) : State :=
  withHeap st (preventExtensionsAt (heap st) a).

(** [x = {count: 0}; p = reactive(x); Object.freeze(x)]. *)
Definition frozenAfterWrapState : State := freeze reactiveCounterState 0.

(** A state with one empty [Map] at location 0. *)
Definition mapState : State := (alloc emptyState (object "Map" [])).2.

(** Only wrappers carry the raw flag, and every wrapper was built after its
    target: the heaps of programs that do not write the reserved keys
    themselves. *)
Definition genuine (st : State) : Prop :=
  ∀ a o, objAt (heap st) a = Some o →
    match o with
    | Ordinary p => carries st (VRef a) RAW = false
    | ProxyObj t _ => t < a
    end.

(** [o = {__v_isReadonly: true}; o.__v_raw = o]. *)
Definition selfReadonly : PlainObject :=
  {| rawType := "Object"; callable := false; extensible := true;
     props := {[ IS_READONLY := VBool true; RAW := VRef 0 ]} |}.

Definition selfReadonlyState : State := (alloc emptyState (Ordinary selfReadonly)).2.

(** [x = {count: 0}; q = readonly(x); markRaw(x)]. *)
Definition markedAfterReadonlyState : State :=
  withHeap (registered counterState 0 readonlyHandlers ReadonlyMap)
    (defineOwn (heap (registered counterState 0 readonlyHandlers ReadonlyMap))
       0 SKIP (VBool true)).

(** Every proxy is built over an older object, and that object is an
    ordinary one, or else the proxy is a readonly one over a mutable one: the
    only layering the factory builds. *)
Definition layered (st : State) : Prop :=
  ∀ p t hd, objAt (heap st) p = Some (ProxyObj t hd) →
    t < p
    ∧ match objAt (heap st) t with
      | Some (Ordinary _) => True
      | Some (ProxyObj _ hd') => handlerReadonly hd = true ∧ handlerReadonly hd' = false
      | None => False
      end.

(** An empty [Set] at location 0 and a [Date] at location 1. *)
Definition kindsState : State :=
  (alloc (alloc emptyState (object "Set" [])).2 (object "Date" [])).2.

(** * Properties *)

(** ** The heap: locations, growth, property definition *)

Lemma objAt_lt h a o : objAt h a = Some o → a < length h.
Proof.
  induction h as [|o' older IH]; simpl; [discriminate|].
  destruct (Nat.eqb_spec a (length older)); [lia|].
  intros H. apply IH in H. lia.
Qed.

Lemma objAt_is_Some h a : a < length h → is_Some (objAt h a).
Proof.
  induction h as [|o' older IH]; simpl; [lia|].
  destruct (Nat.eqb_spec a (length older)); [eauto|].
  intros H. apply IH. lia.
Qed.

Lemma objAt_head h o : objAt (o :: h) (length h) = Some o.
Proof. simpl. by rewrite Nat.eqb_refl. Qed.

Lemma objAt_older h o a : a < length h → objAt (o :: h) a = objAt h a.
Proof. intros H. simpl. destruct (Nat.eqb_spec a (length h)); [lia|done]. Qed.

Lemma getProp_older h o a key : a < length h → getProp (o :: h) a key = getProp h a key.
Proof. intros H. simpl. destruct (Nat.eqb_spec a (length h)); [lia|done]. Qed.

Lemma ordinaryOf_older h o a : a < length h → ordinaryOf (o :: h) a = ordinaryOf h a.
Proof. intros H. simpl. destruct (Nat.eqb_spec a (length h)); [lia|done]. Qed.

Lemma ordinaryOf_inv h a r p :
  ordinaryOf h a = Some (r, p) →
  r ≤ a ∧ a < length h ∧ objAt h r = Some (Ordinary p) ∧ ordinaryOf h r = Some (r, p).
Proof.
  revert a. induction h as [|o older IH]; intros a; simpl; [discriminate|].
  destruct (Nat.eqb_spec a (length older)) as [->|Hne].
  - destruct o as [p'|t hd].
    + intros [= <- <-]. rewrite Nat.eqb_refl. auto with lia.
    + intros H. destruct (IH _ H) as (Hle & Hlt & Hobj & Hord).
      destruct (Nat.eqb_spec r (length older)); [lia|]. auto with lia.
  - intros H. destruct (IH _ H) as (Hle & Hlt & Hobj & Hord).
    destruct (Nat.eqb_spec r (length older)); [lia|]. auto with lia.
Qed.

Lemma ordinaryOf_lt h a rp : ordinaryOf h a = Some rp → a < length h.
Proof. destruct rp as [r p]. intros H. by apply ordinaryOf_inv in H as (_ & ? & _). Qed.

Lemma getProp_ordinary h a p key :
  objAt h a = Some (Ordinary p) → getProp h a key = default VUndefined (props p !! key).
Proof.
  induction h as [|o older IH]; simpl; [discriminate|].
  destruct (Nat.eqb_spec a (length older)); [by intros [= ->]|done].
Qed.

Lemma ordinaryOf_ordinary h a p :
  objAt h a = Some (Ordinary p) → ordinaryOf h a = Some (a, p).
Proof.
  induction h as [|o older IH]; simpl; [discriminate|].
  destruct (Nat.eqb_spec a (length older)); [by intros [= ->]|done].
Qed.

(** What a wrapper answers for the reserved keys. *)
Lemma getProp_proxy_flags h a t hd :
  objAt h a = Some (ProxyObj t hd) →
  getProp h a RAW = VRef t
  ∧ getProp h a IS_REACTIVE = VBool (negb (handlerReadonly hd))
  ∧ getProp h a IS_READONLY = VBool (handlerReadonly hd)
  ∧ getProp h a IS_SHALLOW = VBool (handlerShallow hd).
Proof.
  induction h as [|o older IH]; simpl; [discriminate|].
  destruct (Nat.eqb_spec a (length older)); [by intros [= ->]|done].
Qed.

Lemma length_defineOwn h a key v : length (defineOwn h a key v) = length h.
Proof.
  revert a. induction h as [|o older IH]; intros a; simpl; [done|].
  destruct (Nat.eqb a (length older)); [destruct o|]; simpl; by rewrite ?IH.
Qed.

(** Defining a property changes the ordinary object at the bottom of the
    chain and nothing else. *)
Lemma objAt_defineOwn h a key v b :
  objAt (defineOwn h a key v) b =
    match ordinaryOf h a with
    | Some (r, p) => if Nat.eqb b r then Some (Ordinary (withProp p key v)) else objAt h b
    | None => objAt h b
    end.
Proof.
  revert a. induction h as [|o older IH]; intros a; simpl; [done|].
  destruct (Nat.eqb_spec a (length older)) as [->|Hne].
  - destruct o as [p|t hd]; simpl.
    + destruct (Nat.eqb_spec b (length older)); done.
    + rewrite length_defineOwn, IH.
      destruct (ordinaryOf older t) as [[r p]|] eqn:Hord; [|done].
      apply ordinaryOf_inv in Hord as (Hle & Hlt & _).
      destruct (Nat.eqb_spec b (length older)) as [->|]; [|done].
      destruct (Nat.eqb_spec (length older) r); [lia|done].
  - simpl. rewrite length_defineOwn, IH.
    destruct (ordinaryOf older a) as [[r p]|] eqn:Hord; [|done].
    apply ordinaryOf_inv in Hord as (? & Hlt & _).
    destruct (Nat.eqb_spec b (length older)) as [->|]; [|done].
    destruct (Nat.eqb_spec (length older) r); [lia|done].
Qed.

(** ** The state: registries and heap are independent fields *)

Lemma weakMap_withHeap st h m : weakMap (withHeap st h) m = weakMap st m.
Proof. by destruct m. Qed.

Lemma heap_withWeakMap st m w : heap (withWeakMap st m w) = heap st.
Proof. by destruct m. Qed.

Lemma weakMap_withWeakMap st m w m' :
  weakMap (withWeakMap st m w) m' = if decide (m = m') then w else weakMap st m'.
Proof. by destruct m, m'. Qed.

Lemma isObject_inv st v :
  isObject st v = true →
  ∃ a r p, v = VRef a ∧ ordinaryOf (heap st) a = Some (r, p) ∧ callable p = false.
Proof.
  destruct v as [| | | | |a]; simpl; try discriminate.
  destruct (ordinaryOf (heap st) a) as [[r p]|] eqn:Hord; [|discriminate].
  intros Hc. exists a, r, p. by destruct (callable p).
Qed.

Lemma isObject_lt st a : isObject st (VRef a) = true → a < length (heap st).
Proof.
  intros H. apply isObject_inv in H as (a' & r & p & [= <-] & Hord & _).
  by eapply ordinaryOf_lt.
Qed.

(** ** The outcomes of the factory *)

Lemma getTargetType_ref st a :
  getTargetType st (VRef a) =
    Normal (if truthy (getProp (heap st) a SKIP) || negb (isExtensible st (VRef a))
            then INVALID else targetTypeMap (toRawType st (VRef a))).
Proof. done. Qed.

Lemma newProxy_ref st a hd :
  a < length (heap st) →
  newProxy st (VRef a) hd
  = Normal (length (heap st), withHeap st (ProxyObj a hd :: heap st)).
Proof.
  intros Hlt. unfold newProxy.
  by destruct (objAt_is_Some _ _ Hlt) as [o ->].
Qed.

Lemma createReactiveObject_outcome st target isReadonly bh ch pm :
  ∃ r st', createReactiveObject st target isReadonly bh ch pm = Normal (r, st')
           ∧ FactoryOutcome st target isReadonly bh ch pm r st'.
Proof.
  unfold createReactiveObject.
  destruct (isObject st target) eqn:Hobj; cbn [negb].
  2:{ eexists _, _. split; [done|]. by constructor. }
  destruct (isObject_inv _ _ Hobj) as (a & r & p & -> & Hord & Hcall).
  pose proof (ordinaryOf_lt _ _ _ Hord) as Hlt.
  cbn [getV weakMapGet mbind Completion_bind].
  destruct (truthy (getProp (heap st) a RAW)) eqn:Hraw.
  - destruct isReadonly; cbn [mbind Completion_bind mret Completion_ret].
    + destruct (truthy (getProp (heap st) a IS_REACTIVE)) eqn:Hisr; cbn [negb].
      * destruct (weakMap st pm !! a) as [e|] eqn:Hget.
        { eexists _, _. split; [done|]. eapply fo_existing; eauto. right; auto. }
        rewrite getTargetType_ref.
        set (tt := if _ : bool then INVALID else _).
        cbn [mbind Completion_bind mret Completion_ret].
        case_bool_decide as Htt.
        { eexists _, _. split; [done|]. eapply fo_invalid; eauto.
          - right; auto.
          - rewrite getTargetType_ref. by fold tt; rewrite Htt. }
        rewrite newProxy_ref by done.
        cbn [mbind Completion_bind mret Completion_ret weakMapSet].
        rewrite weakMap_withHeap.
        eexists _, _. split; [done|]. eapply fo_new; eauto. right; auto.
      * eexists _, _. split; [done|]. eapply fo_is_proxy; eauto.
    + eexists _, _. split; [done|]. eapply fo_is_proxy; eauto.
  - cbn [mbind Completion_bind mret Completion_ret].
    destruct (weakMap st pm !! a) as [e|] eqn:Hget.
    { eexists _, _. split; [done|]. eapply fo_existing; eauto. by left. }
    rewrite getTargetType_ref.
    set (tt := if _ : bool then INVALID else _).
    cbn [mbind Completion_bind mret Completion_ret].
    case_bool_decide as Htt.
    { eexists _, _. split; [done|]. eapply fo_invalid; eauto.
      - by left.
      - rewrite getTargetType_ref. by fold tt; rewrite Htt. }
    rewrite newProxy_ref by done.
    cbn [mbind Completion_bind mret Completion_ret weakMapSet].
    rewrite weakMap_withHeap.
    eexists _, _. split; [done|]. eapply fo_new; eauto. by left.
Qed.

Lemma FactoryOutcome_functional st target isReadonly bh ch pm r1 s1 r2 s2 :
  FactoryOutcome st target isReadonly bh ch pm r1 s1 →
  FactoryOutcome st target isReadonly bh ch pm r2 s2 →
  r1 = r2 ∧ s1 = s2.
Proof.
  destruct 1; destruct 1; unfold proceeds in *; simplify_eq; try done;
    repeat match goal with
           | H : _ ∨ _ |- _ => destruct H as [?|?]
           | H : _ ∧ _ |- _ => destruct H as [? ?]
           end; try congruence.
  all: by replace targetType0 with targetType by congruence.
Qed.

Lemma createReactiveObject_eq st target isReadonly bh ch pm r st' :
  FactoryOutcome st target isReadonly bh ch pm r st' →
  createReactiveObject st target isReadonly bh ch pm = Normal (r, st').
Proof.
  intros Hout.
  destruct (createReactiveObject_outcome st target isReadonly bh ch pm)
    as (r0 & st0 & -> & Hout0).
  by destruct (FactoryOutcome_functional _ _ _ _ _ _ _ _ _ _ Hout0 Hout) as [-> ->].
Qed.

(** ** Flags carried by a value *)

Lemma andGet_normal st v key :
  ∃ r, andGet st v key = Normal r ∧ truthy r = carries st v key.
Proof.
  unfold andGet. destruct v as [| |b|n|s|a]; simpl; eauto.
  - destruct b; simpl; eauto.
  - destruct (n =? 0)%Z eqn:Hn; simpl; eexists; (split; [done|]); simpl;
      by rewrite ?Hn.
  - destruct (String.eqb s "") eqn:Hs; simpl; eexists; (split; [done|]); simpl;
      by rewrite ?Hs.
Qed.

Lemma isReadonly_carries st v : isReadonly st v = Normal (carries st v IS_READONLY).
Proof.
  unfold isReadonly. destruct (andGet_normal st v IS_READONLY) as (r & -> & <-). done.
Qed.

Lemma isShallow_carries st v : isShallow st v = Normal (carries st v IS_SHALLOW).
Proof.
  unfold isShallow. destruct (andGet_normal st v IS_SHALLOW) as (r & -> & <-). done.
Qed.

Lemma isProxy_carries st v : isProxy st v = Normal (carries st v RAW).
Proof.
  unfold isProxy. destruct v as [| |b|n|s|a]; simpl; try done.
  - by destruct b.
  - by destruct (n =? 0)%Z.
  - by destruct (String.eqb s "").
Qed.

Lemma reactive_unfold st target :
  reactive st target =
    if carries st target IS_READONLY then Normal (target, st)
    else createReactiveObject st target false
           mutableHandlers mutableCollectionHandlers ReactiveMap.
Proof. unfold reactive. by rewrite isReadonly_carries. Qed.

(** Every constructor is its factory call, [reactive] after its own test for a
    readonly argument. *)
Lemma wrap_unfold m st target :
  wrap m st target =
    match m with
    | MutableDeep =>
        if carries st target IS_READONLY then Normal (target, st)
        else factory m st target
    | _ => factory m st target
    end.
Proof. destruct m; try done. apply reactive_unfold. Qed.

(** One call of the two recursive functions. *)
Lemma isReactive_S fuel st value :
  isReactive (S fuel) st value =
    match value with
    | VRef a =>
        if truthy (getProp (heap st) a IS_READONLY)
        then isReactive fuel st (getProp (heap st) a RAW)
        else Some (Normal (truthy (getProp (heap st) a IS_REACTIVE)))
    | _ => Some (Normal false)
    end.
Proof.
  cbn [isReactive]. rewrite isReadonly_carries.
  destruct (andGet_normal st value IS_REACTIVE) as (r & Hr & Htr).
  destruct value as [| |b|n|s|a]; cbn [carries getV]; rewrite ?Hr; cbn;
    rewrite ?Htr; done.
Qed.

Lemma toRaw_S fuel st observed :
  toRaw (S fuel) st observed =
    match observed with
    | VRef a =>
        if truthy (getProp (heap st) a RAW)
        then toRaw fuel st (getProp (heap st) a RAW)
        else Some (Normal observed)
    | _ => Some (Normal observed)
    end.
Proof.
  cbn [toRaw].
  destruct (andGet_normal st observed RAW) as (r & Hr & Htr). rewrite Hr.
  destruct observed as [| |b|n|s|a]; cbn [carries] in Htr; rewrite ?Htr; try done.
  cbn in Hr. by injection Hr as <-.
Qed.

(** ** The registry invariant *)

Lemma handlerMap_mode hd m :
  handlerMap hd = modeMap m →
  handlerReadonly hd = modeReadonly m ∧ handlerShallow hd = modeShallow m.
Proof. by destruct hd, m. Qed.

Lemma handlerMap_modeHandlers m (b : bool) :
  handlerMap (if b then modeCollectionHandlers m else modeBaseHandlers m) = modeMap m.
Proof. by destruct m, b. Qed.

Lemma registry_ok_empty : registry_ok emptyState.
Proof. intros pm k p. destruct pm; simpl; by rewrite lookup_empty. Qed.

Lemma registry_ok_alloc st o : registry_ok st → registry_ok (alloc st o).2.
Proof.
  intros Hok pm k p. unfold alloc. cbn [snd]. rewrite weakMap_withHeap. intros Hget.
  destruct (Hok _ _ _ Hget) as (hd & Hobj & Hmap & Hlt).
  exists hd. split; [|done]. cbn [heap withHeap].
  rewrite objAt_older; [done|]. by eapply objAt_lt.
Qed.

Lemma registry_ok_counterState : registry_ok counterState.
Proof. apply registry_ok_alloc, registry_ok_empty. Qed.

Lemma registry_ok_registered st a hd pm :
  registry_ok st → handlerMap hd = pm → a < length (heap st) →
  registry_ok (registered st a hd pm).
Proof.
  intros Hok Hhd Ha pm' k p. unfold registered.
  rewrite weakMap_withWeakMap, heap_withWeakMap. cbn [heap withHeap].
  case_decide as Hpm.
  - subst pm'. rewrite lookup_insert. case_decide as Hk.
    + intros [= <-]. subst k. exists hd. by rewrite objAt_head.
    + intros Hget. destruct (Hok _ _ _ Hget) as (hd' & Hobj & Hmap & Hlt).
      exists hd'. split; [|done]. rewrite objAt_older; [done|]. by eapply objAt_lt.
  - rewrite weakMap_withHeap. intros Hget.
    destruct (Hok _ _ _ Hget) as (hd' & Hobj & Hmap & Hlt).
    exists hd'. split; [|done]. rewrite objAt_older; [done|]. by eapply objAt_lt.
Qed.

Lemma factory_outcome m st target :
  ∃ r st', factory m st target = Normal (r, st')
    ∧ FactoryOutcome st target (modeReadonly m) (modeBaseHandlers m)
        (modeCollectionHandlers m) (modeMap m) r st'.
Proof. apply createReactiveObject_outcome. Qed.

Lemma registry_ok_factory m st target r st' :
  registry_ok st → factory m st target = Normal (r, st') → registry_ok st'.
Proof.
  intros Hok Hf.
  destruct (factory_outcome m st target) as (r0 & st0 & Hf0 & Hout).
  rewrite Hf in Hf0. injection Hf0 as <- <-.
  destruct Hout; try done.
  apply registry_ok_registered; [done| |].
  - apply handlerMap_modeHandlers.
  - apply isObject_lt. congruence.
Qed.

Lemma registry_ok_wrap m st target r st' :
  registry_ok st → wrap m st target = Normal (r, st') → registry_ok st'.
Proof.
  intros Hok. rewrite wrap_unfold.
  destruct m; try apply registry_ok_factory; try done.
  destruct (carries st target IS_READONLY); [by intros [= <- <-]|].
  by apply registry_ok_factory.
Qed.

(** ** Frame: a fresh proxy leaves the older objects as they were *)

Lemma heap_registered st a hd pm :
  heap (registered st a hd pm) = ProxyObj a hd :: heap st.
Proof. unfold registered. by rewrite heap_withWeakMap. Qed.

Lemma weakMap_registered st a hd pm pm' :
  weakMap (registered st a hd pm) pm' =
    if decide (pm = pm') then <[a := length (heap st)]> (weakMap st pm)
    else weakMap st pm'.
Proof.
  unfold registered. rewrite weakMap_withWeakMap.
  case_decide; [done|]. by rewrite weakMap_withHeap.
Qed.

Section HeapGrowth.
Variables (st st' : State) (o : HeapObject).
Hypothesis Hgrow : heap st' = o :: heap st.

Lemma grow_objAt a : a < length (heap st) → objAt (heap st') a = objAt (heap st) a.
Proof. rewrite Hgrow. apply objAt_older. Qed.

Lemma grow_getProp a key :
  a < length (heap st) → getProp (heap st') a key = getProp (heap st) a key.
Proof. rewrite Hgrow. apply getProp_older. Qed.

Lemma grow_ordinaryOf a :
  a < length (heap st) → ordinaryOf (heap st') a = ordinaryOf (heap st) a.
Proof. rewrite Hgrow. apply ordinaryOf_older. Qed.

Lemma grow_carries a key :
  a < length (heap st) → carries st' (VRef a) key = carries st (VRef a) key.
Proof. intros Hlt. simpl. by rewrite grow_getProp. Qed.

Lemma grow_isObject a :
  a < length (heap st) → isObject st' (VRef a) = isObject st (VRef a).
Proof. intros Hlt. simpl. by rewrite grow_ordinaryOf. Qed.

Lemma grow_isExtensible a :
  a < length (heap st) → isExtensible st' (VRef a) = isExtensible st (VRef a).
Proof. intros Hlt. simpl. by rewrite grow_ordinaryOf. Qed.

Lemma grow_getTargetType a :
  a < length (heap st) → getTargetType st' (VRef a) = getTargetType st (VRef a).
Proof.
  intros Hlt. rewrite !getTargetType_ref, grow_isExtensible by done.
  cbn [toRawType]. by rewrite grow_getProp, grow_ordinaryOf.
Qed.
End HeapGrowth.

Lemma carries_ref st v key : carries st v key = true → ∃ a, v = VRef a.
Proof. destruct v; simpl; try discriminate. eauto. Qed.

Lemma carries_proxy st p t hd :
  objAt (heap st) p = Some (ProxyObj t hd) →
  carries st (VRef p) RAW = true
  ∧ carries st (VRef p) IS_REACTIVE = negb (handlerReadonly hd)
  ∧ carries st (VRef p) IS_READONLY = handlerReadonly hd
  ∧ carries st (VRef p) IS_SHALLOW = handlerShallow hd.
Proof.
  intros Hobj. apply getProp_proxy_flags in Hobj as (Hraw & Hr & Hro & Hs).
  cbn [carries]. rewrite Hraw, Hr, Hro, Hs. done.
Qed.

(** Wrapping a wrapper of mode [m] again in mode [m] gives it back. *)
Lemma wrap_wrapper m st p t hd :
  objAt (heap st) p = Some (ProxyObj t hd) →
  handlerMap hd = modeMap m →
  wrap m st (VRef p) = Normal (VRef p, st).
Proof.
  intros Hobj Hmap.
  destruct (carries_proxy _ _ _ _ Hobj) as (Hraw & Hr & Hro & _).
  destruct (handlerMap_mode _ _ Hmap) as [Hmro _].
  assert (factory m st (VRef p) = Normal (VRef p, st)) as Hf.
  { apply createReactiveObject_eq.
    destruct (isObject st (VRef p)) eqn:Hisobj; [|by constructor].
    eapply fo_is_proxy; eauto.
    rewrite <- Hmro. simpl in Hr. rewrite Hr.
    destruct (handlerReadonly hd); auto. }
  rewrite wrap_unfold. destruct m; try done.
  rewrite Hro, Hmro. done.
Qed.

(** ** C1: idempotent, identity-stable wrapping *)

Lemma factory_again_registered m st a hd :
  isObject st (VRef a) = true →
  proceeds st a (modeReadonly m) →
  factory m (registered st a hd (modeMap m)) (VRef a)
  = Normal (VRef (length (heap st)), registered st a hd (modeMap m)).
Proof.
  intros Hobj Hpro. pose proof (isObject_lt _ _ Hobj) as Hlt.
  pose proof (heap_registered st a hd (modeMap m)) as Hgrow.
  apply createReactiveObject_eq. eapply fo_existing; [done| | |].
  - by rewrite (grow_isObject _ _ _ Hgrow).
  - unfold proceeds. by rewrite !(grow_getProp _ _ _ Hgrow).
  - rewrite weakMap_registered, decide_True, lookup_insert_eq; done.
Qed.

(** A constructor call, the same call again, and the call on its result. *)
Lemma wrap_again (m : Mode) (st : State) (x : Value) :
  registry_ok st →
  ∃ w st1,
    wrap m st x = Normal (w, st1)
    ∧ wrap m st1 x = Normal (w, st1)
    ∧ wrap m st1 w = Normal (w, st1)
    ∧ (eligible st x → ∃ a, x = VRef a ∧ wrapperOf st1 m a w).
Proof.
  intros Hok.
  assert (∀ w, wrap m st x = Normal (w, st) →
            (w = x ∨ ∃ e, w = VRef e ∧ weakMapGet st (modeMap m) x = Some e) →
            wrap m st w = Normal (w, st)) as Hsame.
  { intros w Hw [->|(e & -> & Hget)]; [done|].
    destruct x as [| | | | |a]; try done. cbn [weakMapGet] in Hget.
    destruct (Hok _ _ _ Hget) as (hd & Hobj & Hmap & _).
    by eapply wrap_wrapper. }
  assert (∀ a e, x = VRef a → eligible st x →
            weakMap st (modeMap m) !! a = Some e → wrapperOf st m a (VRef e)) as Hwrapper.
  { intros a e -> (_ & _ & Hraw & _) Hget.
    destruct (Hok _ _ _ Hget) as (hd & Hobj & Hmap & Hlt).
    exists e, hd. split_and!; try done. lia. }
  rewrite wrap_unfold.
  destruct (factory_outcome m st x) as (r & st' & Hf & Hout).
  assert (∃ w st1, factory m st x = Normal (w, st1)
            ∧ (carries st x IS_READONLY = false ∨ m ≠ MutableDeep →
               wrap m st1 x = Normal (w, st1) ∧ wrap m st1 w = Normal (w, st1))
            ∧ (eligible st x → ∃ a, x = VRef a ∧ wrapperOf st1 m a w)) as Hfac.
  { exists r, st'. split; [done|].
    assert (carries st x IS_READONLY = false ∨ m ≠ MutableDeep →
            wrap m st x = factory m st x) as Hwf.
    { intros [Hro|Hm]; rewrite wrap_unfold; destruct m; try done. by rewrite Hro. }
    destruct Hout as [Hno|a -> Hobj Hraw Hnot|a e -> Hobj Hpro Hget
                     |a -> Hobj Hpro Hget Htt|a tt -> Hobj Hpro Hget Htt Hvalid].
    - split.
      + intros Hc. rewrite (Hwf Hc). done.
      + intros (Hobj & _). congruence.
    - split.
      + intros Hc. rewrite (Hwf Hc). done.
      + intros (_ & _ & Hraw' & _). simpl in Hraw'. congruence.
    - split.
      + intros Hc. specialize (Hwf Hc). split; [congruence|].
        apply Hsame; [congruence|]. right. eauto.
      + intros Hel. exists a. split; [done|]. by eapply Hwrapper.
    - split.
      + intros Hc. rewrite (Hwf Hc). done.
      + intros (_ & Hne & _). congruence.
    - pose proof (isObject_lt _ _ Hobj) as Hlt.
      set (hd := if bool_decide (tt = COLLECTION) then _ else _) in *.
      pose proof (heap_registered st a hd (modeMap m)) as Hgrow.
      assert (handlerMap hd = modeMap m) as Hmap by apply handlerMap_modeHandlers.
      split.
      + intros Hc. split.
        * rewrite wrap_unfold.
          rewrite (grow_carries _ _ _ Hgrow) by done.
          rewrite factory_again_registered by done.
          destruct Hc as [->|Hm]; destruct m; done.
        * eapply wrap_wrapper; [|done]. rewrite Hgrow. apply objAt_head.
      + intros _. exists a. split; [done|].
        exists (length (heap st)), hd. split_and!; try done; [lia|].
        rewrite Hgrow. apply objAt_head. }
  destruct Hfac as (w & st1 & Hfw & Hagain & Hel).
  destruct m.
  1: destruct (carries st x IS_READONLY) eqn:Hro.
  1:{ exists x, st. rewrite !wrap_unfold, Hro. split_and!; try done.
      intros (_ & _ & _ & Hro'). congruence. }
  all: exists w, st1; split; [done|].
  all: split_and!; try apply Hagain; auto.
Qed.

(** ** C2: the re-wrap rule of the factory *)

(** C2. For every target that carries the raw flag: unless readonly is asked
    and the target carries the is-reactive flag, the factory returns the
    target unchanged and leaves the state alone, and so does every constructor
    of that kind.  In that one case, on an object-like target, the factory
    goes on: it returns the registry's entry for the target if there is one,
    returns the target if the classifier rejects it, and otherwise builds a
    fresh proxy over the target and registers it. *)
Theorem createReactiveObject_rewrap_rule (st : State) (target : Value)
    (isReadonly : bool) (baseHandlers collectionHandlers : ProxyHandler)
    (proxyMap : ProxyMap) :
  carries st target RAW = true →
  if isReadonly && carries st target IS_REACTIVE
  then
    isObject st target = true →
    ∃ a targetType,
      target = VRef a
      ∧ getTargetType st target = Normal targetType
      ∧ createReactiveObject st target isReadonly baseHandlers collectionHandlers proxyMap
        = match weakMap st proxyMap !! a with
          | Some existingProxy => Normal (VRef existingProxy, st)
          | None =>
              if bool_decide (targetType = INVALID) then Normal (target, st)
              else Normal (VRef (length (heap st)),
                           registered st a
                             (if bool_decide (targetType = COLLECTION)
                              then collectionHandlers else baseHandlers) proxyMap)
          end
  else
    createReactiveObject st target isReadonly baseHandlers collectionHandlers proxyMap
    = Normal (target, st)
    ∧ ∀ m, modeReadonly m = isReadonly → wrap m st target = Normal (target, st).
Proof.
  intros Hraw. destruct (carries_ref _ _ _ Hraw) as [a ->].
  destruct (isReadonly && carries st (VRef a) IS_REACTIVE) eqn:Hexc.
  - apply andb_true_iff in Hexc as [-> Hisr]. intros Hobj.
    pose proof (getTargetType_ref st a) as Hclass.
    set (tt := if _ : bool then INVALID else _) in Hclass.
    exists a, tt. split_and!; [done..|].
    assert (proceeds st a true) as Hpro by (right; auto).
    destruct (weakMap st proxyMap !! a) as [e|] eqn:Hget.
    { apply createReactiveObject_eq. by eapply fo_existing. }
    case_bool_decide as Htt.
    + apply createReactiveObject_eq. eapply fo_invalid; eauto. by rewrite <- Htt.
    + apply createReactiveObject_eq. eapply fo_new; eauto.
  - assert (∀ bh ch pm,
              createReactiveObject st (VRef a) isReadonly bh ch pm
              = Normal (VRef a, st)) as Hfac.
    { intros bh ch pm. apply createReactiveObject_eq.
      destruct (isObject st (VRef a)) eqn:Hobj; [|by constructor].
      eapply fo_is_proxy; eauto.
      apply andb_false_iff in Hexc. simpl in Hexc. done. }
    split; [apply Hfac|].
    intros m <-. rewrite wrap_unfold. unfold factory. rewrite Hfac.
    destruct m; try done. by destruct (carries st (VRef a) IS_READONLY).
Qed.

Example reactive_counterState :
  reactive counterState (VRef 0) = Normal (VRef 1, reactiveCounterState).
Proof. reflexivity. Qed.

Lemma createReactiveObject_rewrap_rule_witness :
  carries reactiveCounterState (VRef 1) RAW = true
  ∧ createReactiveObject reactiveCounterState (VRef 1) false
      shallowReactiveHandlers shallowCollectionHandlers ShallowReactiveMap
    = Normal (VRef 1, reactiveCounterState)
  ∧ createReactiveObject reactiveCounterState (VRef 1) true
      readonlyHandlers readonlyCollectionHandlers ReadonlyMap
    = Normal (VRef 2,
              registered reactiveCounterState 1 readonlyHandlers ReadonlyMap).
Proof.
  split; [reflexivity|]. split.
  - exact (proj1 (createReactiveObject_rewrap_rule reactiveCounterState (VRef 1) false
                    shallowReactiveHandlers shallowCollectionHandlers ShallowReactiveMap
                    eq_refl)).
  - destruct (createReactiveObject_rewrap_rule reactiveCounterState (VRef 1) true
                readonlyHandlers readonlyCollectionHandlers ReadonlyMap
                eq_refl eq_refl) as (a & tt & Ha & Htt & Hres).
    injection Ha as <-.
    change (getTargetType reactiveCounterState (VRef 1))
      with (@Normal TargetType COMMON) in Htt.
    injection Htt as <-. exact Hres.
Defined.

(** ** C7: readonly over a readonly wrapper *)

(** C7. A wrapper built with a readonly handler passes through [readonly]
    unchanged; and for every [x], in a state whose registries hold what the
    factory put there, [readonly(readonly(x))] is [readonly(x)]: the inner call
    returns some [r], the outer call on [r] returns [r], and so does a further
    [readonly(x)]. *)
Theorem readonly_readonly_passthrough (st : State) (x : Value) :
  registry_ok st →
  (∀ p t hd, objAt (heap st) p = Some (ProxyObj t hd) → handlerReadonly hd = true →
             readonly st (VRef p) = Normal (VRef p, st))
  ∧ ∃ r st1,
      readonly st x = Normal (r, st1)
      ∧ readonly st1 r = Normal (r, st1)
      ∧ readonly st1 x = Normal (r, st1).
Proof.
  intros Hok. split.
  - intros p t hd Hobj Hro.
    destruct (carries_proxy _ _ _ _ Hobj) as (Hraw & Hr & _).
    apply createReactiveObject_eq.
    destruct (isObject st (VRef p)) eqn:Hisobj; [|by constructor].
    eapply fo_is_proxy; eauto. right. simpl in Hr. by rewrite Hr, Hro.
  - destruct (wrap_again ReadonlyDeep st x Hok) as (r & st1 & H1 & H2 & H3 & _).
    by exists r, st1.
Qed.

Lemma readonly_readonly_passthrough_witness :
  registry_ok counterState
  ∧ ∃ r st1,
      readonly counterState (VRef 0) = Normal (r, st1)
      ∧ readonly st1 r = Normal (r, st1)
      ∧ readonly st1 (VRef 0) = Normal (r, st1).
Proof.
  split; [exact registry_ok_counterState|].
  exact (proj2 (readonly_readonly_passthrough counterState (VRef 0)
                  registry_ok_counterState)).
Defined.

(** ** C9: wrapping does not touch the original *)

(** C9. A constructor call always returns, and every object that existed
    before the call is afterwards exactly what it was: same own properties,
    same extensibility, same tag, and every property read gives the same
    answer.  The heap is unchanged or has gained the one fresh proxy, built
    over the target; the registries of the other modes are unchanged, and the
    registry of the mode is unchanged or has gained the one entry from the
    target to the fresh proxy. *)
Theorem wrap_leaves_original_untouched (m : Mode) (st : State) (target : Value) :
  ∃ r st',
    wrap m st target = Normal (r, st')
    ∧ (∀ a, a < length (heap st) →
         objAt (heap st') a = objAt (heap st) a
         ∧ ∀ key, getProp (heap st') a key = getProp (heap st) a key)
    ∧ (∀ pm, pm ≠ modeMap m → weakMap st' pm = weakMap st pm)
    ∧ (st' = st
       ∨ ∃ t hd, target = VRef t ∧ t < length (heap st)
                 ∧ r = VRef (length (heap st))
                 ∧ heap st' = ProxyObj t hd :: heap st
                 ∧ weakMap st (modeMap m) !! t = None
                 ∧ weakMap st' (modeMap m) = <[t := length (heap st)]> (weakMap st (modeMap m))).
Proof.
  assert (∃ r st', factory m st target = Normal (r, st')
    ∧ (∀ a, a < length (heap st) →
         objAt (heap st') a = objAt (heap st) a
         ∧ ∀ key, getProp (heap st') a key = getProp (heap st) a key)
    ∧ (∀ pm, pm ≠ modeMap m → weakMap st' pm = weakMap st pm)
    ∧ (st' = st
       ∨ ∃ t hd, target = VRef t ∧ t < length (heap st)
                 ∧ r = VRef (length (heap st))
                 ∧ heap st' = ProxyObj t hd :: heap st
                 ∧ weakMap st (modeMap m) !! t = None
                 ∧ weakMap st' (modeMap m) = <[t := length (heap st)]> (weakMap st (modeMap m))))
    as Hfac.
  { destruct (factory_outcome m st target) as (r & st' & Hf & Hout).
    exists r, st'. split; [done|].
    destruct Hout as [| | | |a tt Heq Hobj Hpro Hget Htt Hvalid]; try by auto.
    set (hd := if bool_decide (tt = COLLECTION) then _ else _).
    pose proof (heap_registered st a hd (modeMap m)) as Hgrow.
    split_and!.
    - intros b Hb. split; [|intros key].
      + by apply (grow_objAt _ _ _ Hgrow).
      + by apply (grow_getProp _ _ _ Hgrow).
    - intros pm Hpm. by rewrite weakMap_registered, decide_False.
    - right. exists a, hd. subst target. split_and!; try done.
      + by apply isObject_lt.
      + by rewrite weakMap_registered, decide_True. }
  rewrite wrap_unfold. destruct m; try done.
  destruct (carries st target IS_READONLY); [|done].
  exists target, st. auto.
Qed.

(** ** C10: reserved keys are read as ordinary properties *)

(** C10. A plain object with a truthy own [__v_raw] property is returned
    unchanged by every constructor, except by the readonly ones when it also
    carries a truthy [__v_isReactive], and [isProxy] reports it as a proxy.  A
    plain object with a truthy own [__v_isReadonly] property is returned
    unchanged by [reactive] and reported readonly by [isReadonly]. *)
Theorem spoofed_flags_taken_at_face_value (st : State) (a : loc) (v : PlainObject) :
  objAt (heap st) a = Some (Ordinary v) →
  (∀ raw, props v !! RAW = Some raw → truthy raw = true →
     (∀ m, modeReadonly m && carries st (VRef a) IS_REACTIVE = false →
           wrap m st (VRef a) = Normal (VRef a, st))
     ∧ isProxy st (VRef a) = Normal true)
  ∧ (∀ ro, props v !! IS_READONLY = Some ro → truthy ro = true →
     reactive st (VRef a) = Normal (VRef a, st)
     ∧ isReadonly st (VRef a) = Normal true).
Proof.
  intros Hobj. split.
  - intros raw Hown Hraw.
    assert (carries st (VRef a) RAW = true) as Hc.
    { simpl. by rewrite (getProp_ordinary _ _ _ _ Hobj), Hown. }
    split; [|by rewrite isProxy_carries, Hc].
    intros m Hexc.
    assert (factory m st (VRef a) = Normal (VRef a, st)) as Hf.
    { apply createReactiveObject_eq.
      destruct (isObject st (VRef a)) eqn:Hisobj; [|by constructor].
      eapply fo_is_proxy; eauto.
      apply andb_false_iff in Hexc. simpl in Hexc. done. }
    rewrite wrap_unfold. destruct m; try done.
    by destruct (carries st (VRef a) IS_READONLY).
  - intros ro Hown Hro.
    assert (carries st (VRef a) IS_READONLY = true) as Hc.
    { simpl. by rewrite (getProp_ordinary _ _ _ _ Hobj), Hown. }
    by rewrite reactive_unfold, isReadonly_carries, Hc.
Qed.

Lemma spoofed_flags_taken_at_face_value_witness :
  objAt (heap spoofState) 1 = Some (Ordinary spoofedReadonly)
  ∧ reactive spoofState (VRef 1) = Normal (VRef 1, spoofState)
  ∧ isReadonly spoofState (VRef 1) = Normal true.
Proof.
  split; [reflexivity|].
  exact (proj2 (spoofed_flags_taken_at_face_value spoofState 1 spoofedReadonly eq_refl)
           (VBool true) eq_refl eq_refl).
Defined.

Example spoofedRaw_reported_as_proxy :
  isProxy spoofState (VRef 0) = Normal true
  ∧ shallowReadonly spoofState (VRef 0) = Normal (VRef 0, spoofState).
Proof. split; reflexivity. Qed.

(** ** C3: readonly over a reactive wrapper *)

(** What a wrapper hands on to its target: the operations without a trap, and
    the read of the skip flag. *)
Lemma proxy_forwards h p t hd :
  objAt h p = Some (ProxyObj t hd) → t < p →
  ordinaryOf h p = ordinaryOf h t ∧ getProp h p SKIP = getProp h t SKIP.
Proof.
  induction h as [|o older IH]; simpl; [discriminate|].
  destruct (Nat.eqb_spec p (length older)) as [->|Hne].
  - intros [= ->] Hlt.
    destruct (Nat.eqb_spec t (length older)); [lia|done].
  - intros Hobj Hlt. pose proof (objAt_lt _ _ _ Hobj).
    destruct (Nat.eqb_spec t (length older)); [lia|]. by apply IH.
Qed.

Lemma proxy_classified_as_target st p t hd :
  objAt (heap st) p = Some (ProxyObj t hd) → t < p →
  isObject st (VRef p) = isObject st (VRef t)
  ∧ getTargetType st (VRef p) = getTargetType st (VRef t).
Proof.
  intros Hobj Hlt. destruct (proxy_forwards _ _ _ _ Hobj Hlt) as [Hord Hskip].
  rewrite !getTargetType_ref. simpl. by rewrite Hord, Hskip.
Qed.

(** Wrapping an eligible object: the result is a proxy over it, recorded in
    the registry of the mode; the state is unchanged when the proxy was there
    already and has gained just that proxy otherwise. *)
Lemma wrap_eligible m st x :
  registry_ok st → eligible st x →
  ∃ a p hd st1,
    x = VRef a
    ∧ wrap m st x = Normal (VRef p, st1)
    ∧ a < p
    ∧ objAt (heap st1) p = Some (ProxyObj a hd)
    ∧ handlerMap hd = modeMap m
    ∧ weakMap st1 (modeMap m) !! a = Some p
    ∧ (st1 = st ∨ (p = length (heap st) ∧ st1 = registered st a hd (modeMap m))).
Proof.
  intros Hok (Hobj & Hclass & Hraw & Hro).
  destruct (isObject_inv _ _ Hobj) as (a & r & o & -> & Hord & _).
  assert (wrap m st (VRef a) = factory m st (VRef a)) as ->.
  { rewrite wrap_unfold. destruct m; try done. by rewrite Hro. }
  destruct (factory_outcome m st (VRef a)) as (w & st1 & Hf & Hout).
  exists a.
  destruct Hout as [Hno|a' [= <-] _ Hraw' _|a' e [= <-] _ Hpro Hget
                   |a' _ _ _ _ Htt|a' tt [= <-] _ Hpro Hget Htt Hvalid];
    try congruence.
  - simpl in Hraw. congruence.
  - destruct (Hok _ _ _ Hget) as (hd & Hobj' & Hmap & Hlt).
    exists e, hd, st. split_and!; auto.
  - set (hd := if bool_decide (tt = COLLECTION) then _ else _) in *.
    pose proof (isObject_lt _ _ Hobj) as Hlt.
    exists (length (heap st)), hd, (registered st a hd (modeMap m)).
    split_and!; auto.
    + rewrite heap_registered. apply objAt_head.
    + apply handlerMap_modeHandlers.
    + by rewrite weakMap_registered, decide_True, lookup_insert_eq.
Qed.

(** C3 as the specification words it does not hold on [{count: 0}]: the
    readonly wrapper (location 2) is built over the reactive wrapper
    (location 1), not over the original (location 0), and the readonly registry
    has its entry under the reactive wrapper and none under the original. *)
Lemma readonly_of_reactive_not_over_original :
  ∃ st1 st2,
    reactive counterState (VRef 0) = Normal (VRef 1, st1)
    ∧ readonly st1 (VRef 1) = Normal (VRef 2, st2)
    ∧ objAt (heap st2) 2 = Some (ProxyObj 1 readonlyHandlers)
    ∧ ¬ (∃ hd, objAt (heap st2) 2 = Some (ProxyObj 0 hd))
    ∧ readonlyMap st2 !! 0 = None
    ∧ readonlyMap st2 !! 1 = Some 2.
Proof.
  eexists _, _. split_and!; try reflexivity.
  intros [hd Hobj]. vm_compute in Hobj. discriminate.
Qed.

(** C3, amended. For every eligible object [x], in a state whose registries
    hold what the factory put there, [readonly(reactive(x))] is a wrapper [q]
    distinct from the wrapper [p] that [reactive(x)] returns; [q] is built with
    a readonly handler over [p] itself, which in turn is built over [x]; the
    readonly registry records [q] under [p], as an entry of its own beside the
    reactive registry's entry from [x] to [p]; it is a fresh proxy unless the
    readonly registry had it already.  On [q], [isReadonly] is true and
    [isReactive] is true, found through the raw flag. *)
Theorem readonly_of_reactive (st : State) (x : Value) :
  registry_ok st → eligible st x →
  ∃ a p q hp hq st1 st2,
    x = VRef a
    ∧ reactive st x = Normal (VRef p, st1)
    ∧ readonly st1 (VRef p) = Normal (VRef q, st2)
    ∧ q ≠ p
    ∧ objAt (heap st2) p = Some (ProxyObj a hp) ∧ handlerMap hp = ReactiveMap
    ∧ objAt (heap st2) q = Some (ProxyObj p hq) ∧ handlerMap hq = ReadonlyMap
    ∧ reactiveMap st2 !! a = Some p
    ∧ readonlyMap st2 !! p = Some q
    ∧ (readonlyMap st1 !! p = None → q = length (heap st1))
    ∧ isReadonly st2 (VRef q) = Normal true
    ∧ isReactive 2 st2 (VRef q) = Some (Normal true).
Proof.
  intros Hok Hel.
  destruct (wrap_eligible MutableDeep st x Hok Hel)
    as (a & p & hp & st1 & -> & Hreactive & Hap & Hp & Hhp & Hreg & Hst1).
  pose proof (registry_ok_wrap _ _ _ _ _ Hok Hreactive) as Hok1.
  cbn [wrap modeMap] in *.
  destruct Hel as (Hobj & Hclass & _ & _).
  pose proof (isObject_lt _ _ Hobj) as Hlt.
  assert (isObject st1 (VRef a) = true ∧ getTargetType st1 (VRef a) ≠ Normal INVALID)
    as [Hobj1 Hclass1].
  { destruct Hst1 as [->|[_ ->]]; [done|].
    pose proof (heap_registered st a hp ReactiveMap) as Hgrow.
    by rewrite (grow_isObject _ _ _ Hgrow), (grow_getTargetType _ _ _ Hgrow). }
  destruct (proxy_classified_as_target _ _ _ _ Hp Hap) as [Hpobj Hpclass].
  destruct (carries_proxy _ _ _ _ Hp) as (Hraw & Hisr & Hro & _).
  destruct (handlerMap_mode hp MutableDeep Hhp) as [Hhpro _]. cbn in Hhpro.
  rewrite Hhpro in Hisr, Hro.
  pose proof (objAt_lt _ _ _ Hp) as Hplt.
  destruct (factory_outcome ReadonlyDeep st1 (VRef p)) as (w & st2 & Hf & Hout).
  change (factory ReadonlyDeep st1 (VRef p)) with (readonly st1 (VRef p)) in Hf.
  cbn [modeReadonly modeMap modeBaseHandlers modeCollectionHandlers] in Hout.
  assert (∃ q hq, w = VRef q ∧ q ≠ p
            ∧ (∀ b, b < length (heap st1) → objAt (heap st2) b = objAt (heap st1) b)
            ∧ objAt (heap st2) q = Some (ProxyObj p hq) ∧ handlerMap hq = ReadonlyMap
            ∧ reactiveMap st2 = reactiveMap st1
            ∧ readonlyMap st2 !! p = Some q
            ∧ (readonlyMap st1 !! p = None → q = length (heap st1)))
    as (q & hq & -> & Hqp & Hframe & Hq & Hhq & Hreg2 & Hreg3 & Hfresh).
  { destruct Hout as [Hno|a' [= <-] _ _ [?|Hnot]|a' e [= <-] _ Hpro Hget
                     |a' [= <-] _ _ _ Htt|a' tt [= <-] _ Hpro Hget Htt Hvalid];
      try congruence.
    - simpl in Hisr. congruence.
    - destruct (Hok1 _ _ _ Hget) as (hq & Hobj' & Hmap & Hlt').
      exists e, hq. cbn [weakMap] in Hget. split_and!; auto; [lia|congruence].
    - set (hq := if bool_decide (tt = COLLECTION) then _ else _) in *.
      pose proof (heap_registered st1 p hq ReadonlyMap) as Hgrow.
      exists (length (heap st1)), hq. split_and!; auto.
      + lia.
      + intros b Hb. by apply (grow_objAt _ _ _ Hgrow).
      + rewrite Hgrow. apply objAt_head.
      + by destruct tt.
      + pose proof (weakMap_registered st1 p hq ReadonlyMap ReadonlyMap) as Hw.
        cbn [weakMap] in Hw. rewrite Hw, decide_True by done.
        apply lookup_insert_eq. }
  assert (objAt (heap st2) p = Some (ProxyObj a hp)) as Hp2 by by rewrite Hframe.
  destruct (carries_proxy _ _ _ _ Hq) as (Hqraw & Hqisr & Hqro & _).
  destruct (handlerMap_mode hq ReadonlyDeep Hhq) as [Hhqro _]. cbn in Hhqro.
  destruct (carries_proxy _ _ _ _ Hp2) as (_ & Hpisr2 & Hpro2 & _).
  rewrite Hhpro in Hpisr2, Hpro2. rewrite Hhqro in Hqro.
  exists a, p, q, hp, hq, st1, st2. split_and!; auto; try congruence.
  - by rewrite Hreg2.
  - by rewrite isReadonly_carries, Hqro.
  - cbn [carries] in *. rewrite isReactive_S, Hqro.
    destruct (getProp_proxy_flags _ _ _ _ Hq) as (-> & _).
    by rewrite isReactive_S, Hpro2, Hpisr2.
Qed.

Lemma eligible_counterState : eligible counterState (VRef 0).
Proof. split_and!; try reflexivity. intros H. vm_compute in H. discriminate. Qed.

Lemma readonly_of_reactive_witness :
  registry_ok counterState ∧ eligible counterState (VRef 0)
  ∧ ∃ a p q hp hq st1 st2,
      VRef 0 = VRef a
      ∧ reactive counterState (VRef 0) = Normal (VRef p, st1)
      ∧ readonly st1 (VRef p) = Normal (VRef q, st2)
      ∧ q ≠ p
      ∧ objAt (heap st2) p = Some (ProxyObj a hp) ∧ handlerMap hp = ReactiveMap
      ∧ objAt (heap st2) q = Some (ProxyObj p hq) ∧ handlerMap hq = ReadonlyMap
      ∧ reactiveMap st2 !! a = Some p
      ∧ readonlyMap st2 !! p = Some q
      ∧ (readonlyMap st1 !! p = None → q = length (heap st1))
      ∧ isReadonly st2 (VRef q) = Normal true
      ∧ isReactive 2 st2 (VRef q) = Some (Normal true).
Proof.
  split; [exact registry_ok_counterState|].
  split; [exact eligible_counterState|].
  exact (readonly_of_reactive counterState (VRef 0)
           registry_ok_counterState eligible_counterState).
Defined.

(** ** C4: toRaw *)

Lemma RawChain_end st v r : RawChain st v r → valid st r ∧ carries st r RAW = false.
Proof. induction 1; auto. Qed.

Lemma getProp_truthy_lt h a key : truthy (getProp h a key) = true → a < length h.
Proof.
  induction h as [|o older IH]; simpl; [discriminate|].
  destruct (Nat.eqb_spec a (length older)); [lia|].
  intros H. apply IH in H. lia.
Qed.

Lemma RawChain_valid st v r : RawChain st v r → valid st v.
Proof. destruct 1; [done|]. simpl. by eapply getProp_truthy_lt. Qed.

(** With enough fuel [toRaw] returns the end of the chain. *)
Lemma toRaw_chain st v r :
  RawChain st v r → ∃ n, ∀ fuel, n ≤ fuel → toRaw fuel st v = Some (Normal r).
Proof.
  induction 1 as [v Hv Hraw|a r Hraw Hchain [n IH]].
  - exists 1. intros [|fuel] Hle; [lia|]. rewrite toRaw_S.
    destruct v; try done. simpl in Hraw. by rewrite Hraw.
  - exists (S n). intros [|fuel] Hle; [lia|]. rewrite toRaw_S, Hraw.
    apply IH. lia.
Qed.

(** With enough fuel [isReactive] returns as well. *)
Lemma isReactive_chain st v r :
  RawChain st v r → ∃ n, ∀ fuel, n ≤ fuel → ∃ b, isReactive fuel st v = Some (Normal b).
Proof.
  induction 1 as [v Hv Hraw|a r Hraw Hchain [n IH]].
  - exists 2. intros [|[|fuel]] Hle; try lia. rewrite isReactive_S.
    destruct v as [| | | | |a]; eauto.
    destruct (truthy (getProp (heap st) a IS_READONLY)); eauto.
    rewrite isReactive_S. simpl in Hraw.
    destruct (getProp (heap st) a RAW); eauto. discriminate.
  - exists (S n). intros [|fuel] Hle; [lia|]. rewrite isReactive_S.
    destruct (truthy (getProp (heap st) a IS_READONLY)); eauto.
    apply IH. lia.
Qed.

Lemma RawChain_grow st st' o v r :
  heap st' = o :: heap st → RawChain st v r → RawChain st' v r.
Proof.
  intros Hgrow. induction 1 as [v Hv Hraw|a r Hraw Hchain IH].
  - apply rc_end.
    + destruct v; try done. simpl in *. rewrite Hgrow. simpl. lia.
    + destruct v; try done. by rewrite (grow_carries _ _ _ Hgrow).
  - pose proof (getProp_truthy_lt _ _ _ Hraw) as Hlt.
    rewrite <- (grow_getProp _ _ _ Hgrow a RAW) in IH, Hraw by done.
    by apply rc_step.
Qed.

Lemma RawChain_proxy st p t hd r :
  objAt (heap st) p = Some (ProxyObj t hd) → RawChain st (VRef t) r →
  RawChain st (VRef p) r.
Proof.
  intros Hobj Hchain. destruct (getProp_proxy_flags _ _ _ _ Hobj) as (Hraw & _).
  apply rc_step; by rewrite Hraw.
Qed.

(** Wrapping keeps the unwrapped ancestor: the result of a constructor call
    on [v] has the raw chain of [v], one step longer when it is a wrapper. *)
Lemma wrap_RawChain m st v r w st1 :
  registry_ok st → RawChain st v r → wrap m st v = Normal (w, st1) →
  RawChain st1 w r.
Proof.
  intros Hok Hchain. rewrite wrap_unfold.
  assert (factory m st v = Normal (w, st1) → RawChain st1 w r) as Hfac.
  { intros Hf. destruct (factory_outcome m st v) as (w0 & st0 & Hf0 & Hout).
    rewrite Hf in Hf0. injection Hf0 as <- <-.
    destruct Hout as [| |a e -> _ _ Hget| |a tt -> Hobj _ _ _ _]; try done.
    - destruct (Hok _ _ _ Hget) as (hd & Hobj' & _). by eapply RawChain_proxy.
    - set (hd := if bool_decide (tt = COLLECTION) then _ else _).
      pose proof (heap_registered st a hd (modeMap m)) as Hgrow.
      eapply RawChain_proxy.
      + rewrite Hgrow. apply objAt_head.
      + by eapply RawChain_grow. }
  destruct m; try done.
  destruct (carries st v IS_READONLY); [|done]. by intros [= <- <-].
Qed.

Lemma wrap_normal m st target : ∃ w st1, wrap m st target = Normal (w, st1).
Proof.
  rewrite wrap_unfold.
  destruct (factory_outcome m st target) as (w & st1 & Hf & _).
  destruct m; eauto. destruct (carries st target IS_READONLY); eauto.
Qed.

(** C4 as the specification words it does not hold on the object of
    [selfRawState], [o = {}; o.__v_raw = o]: it carries a raw flag, the
    recursion of [toRaw] never leaves it, and no amount of fuel gives a
    result. *)
Lemma toRaw_diverges_on_cyclic_raw :
  carries selfRawState (VRef 0) RAW = true
  ∧ ¬ ∃ fuel result, toRaw fuel selfRawState (VRef 0) = Some result.
Proof.
  split; [reflexivity|].
  intros (fuel & result & H). induction fuel as [|fuel IH]; [discriminate|].
  rewrite toRaw_S in H. apply IH, H.
Qed.

(** C4, amended. [toRaw] follows the raw flag: on a value that carries it, it
    calls itself on the flag's value, otherwise it returns its argument.
    Whenever the chain of raw flags from a value ends, the recursion
    terminates and returns the end of the chain, the unwrapped ancestor.  So, in
    a state whose registries hold what the factory put there and for every
    [x] that carries no raw flag: [toRaw(x)] is [x], [toRaw(reactive(x))] is
    [x] and [toRaw(readonly(reactive(x)))] is [x]. *)
Theorem toRaw_terminates_at_unwrapped_ancestor (st : State) (x : Value) :
  registry_ok st → valid st x → carries st x RAW = false →
  (∀ fuel v,
     toRaw (S fuel) st v =
       if carries st v RAW
       then match v with
            | VRef a => toRaw fuel st (getProp (heap st) a RAW)
            | _ => None
            end
       else Some (Normal v))
  ∧ (∀ v r, RawChain st v r →
       carries st r RAW = false
       ∧ ∃ n, ∀ fuel, n ≤ fuel → toRaw fuel st v = Some (Normal r))
  ∧ toRaw 1 st x = Some (Normal x)
  ∧ ∃ p st1 q st2,
      reactive st x = Normal (p, st1)
      ∧ readonly st1 p = Normal (q, st2)
      ∧ (∃ n, ∀ fuel, n ≤ fuel → toRaw fuel st1 p = Some (Normal x))
      ∧ (∃ n, ∀ fuel, n ≤ fuel → toRaw fuel st2 q = Some (Normal x)).
Proof.
  intros Hok Hvalid Hraw.
  assert (RawChain st x x) as Hchain by by apply rc_end.
  split_and!.
  - intros fuel v. rewrite toRaw_S. by destruct v.
  - intros v r Hvr. split; [by eapply RawChain_end|by apply toRaw_chain].
  - rewrite toRaw_S. destruct x; try done. simpl in Hraw. by rewrite Hraw.
  - destruct (wrap_normal MutableDeep st x) as (p & st1 & Hp).
    destruct (wrap_normal ReadonlyDeep st1 p) as (q & st2 & Hq).
    pose proof (registry_ok_wrap _ _ _ _ _ Hok Hp) as Hok1.
    pose proof (wrap_RawChain _ _ _ _ _ _ Hok Hchain Hp) as Hchain1.
    pose proof (wrap_RawChain _ _ _ _ _ _ Hok1 Hchain1 Hq) as Hchain2.
    exists p, st1, q, st2. split_and!; try done; by apply toRaw_chain.
Qed.

Lemma toRaw_terminates_at_unwrapped_ancestor_witness :
  registry_ok counterState ∧ valid counterState (VRef 0)
  ∧ carries counterState (VRef 0) RAW = false
  ∧ toRaw 1 counterState (VRef 0) = Some (Normal (VRef 0))
  ∧ ∃ p st1 q st2,
      reactive counterState (VRef 0) = Normal (p, st1)
      ∧ readonly st1 p = Normal (q, st2)
      ∧ (∃ n, ∀ fuel, n ≤ fuel → toRaw fuel st1 p = Some (Normal (VRef 0)))
      ∧ (∃ n, ∀ fuel, n ≤ fuel → toRaw fuel st2 q = Some (Normal (VRef 0))).
Proof.
  assert (valid counterState (VRef 0)) as Hvalid by (simpl; lia).
  split; [exact registry_ok_counterState|].
  split; [exact Hvalid|].
  split; [reflexivity|].
  exact (proj2 (proj2 (toRaw_terminates_at_unwrapped_ancestor counterState (VRef 0)
                         registry_ok_counterState Hvalid eq_refl))).
Defined.

(** ** markRaw and the skip flag *)

(** A wrapper answers a key that is not one of its four flags from the
    ordinary object at the bottom of its chain. *)
Lemma getProp_forwarded h a key :
  key ≠ IS_REACTIVE → key ≠ IS_READONLY → key ≠ IS_SHALLOW → key ≠ RAW →
  getProp h a key =
    match ordinaryOf h a with
    | Some (_, o) => default VUndefined (props o !! key)
    | None => VUndefined
    end.
Proof.
  intros H1 H2 H3 H4. revert a.
  induction h as [|o older IH]; intros a; simpl; [done|].
  destruct (Nat.eqb_spec a (length older)); [|done].
  destruct o as [p|t hd]; [done|].
  unfold trapGet.
  apply String.eqb_neq in H1, H2, H3, H4. by rewrite H1, H2, H3, H4.
Qed.

Lemma getProp_skip h a :
  getProp h a SKIP =
    match ordinaryOf h a with
    | Some (_, o) => default VUndefined (props o !! SKIP)
    | None => VUndefined
    end.
Proof. by apply getProp_forwarded. Qed.

Lemma ordinaryOf_defineOwn h b key v a :
  ordinaryOf (defineOwn h b key v) a =
    match ordinaryOf h a, ordinaryOf h b with
    | Some (r, o), Some (r', _) =>
        if Nat.eqb r r' then Some (r, withProp o key v) else Some (r, o)
    | res, _ => res
    end.
Proof.
  revert a b. induction h as [|o older IH]; intros a b; simpl; [done|].
  destruct (Nat.eqb_spec b (length older)) as [->|Hb];
    destruct (Nat.eqb_spec a (length older)) as [->|Ha];
    destruct o as [p|t hd]; simpl; rewrite ?length_defineOwn, ?Nat.eqb_refl;
    try (destruct (Nat.eqb_spec a (length older)); [lia|]);
    try done.
  - destruct (ordinaryOf older a) as [[r o]|] eqn:Hord; [|done].
    apply ordinaryOf_inv in Hord as (? & ? & _).
    destruct (Nat.eqb_spec r (length older)); [lia|done].
  - destruct (ordinaryOf older b) as [[r' o']|] eqn:Hord; [|done].
    apply ordinaryOf_inv in Hord as (? & ? & _).
    destruct (Nat.eqb_spec (length older) r'); [lia|done].
Qed.

Lemma getProp_defineOwn_other h b key v a key' :
  key' ≠ key → getProp (defineOwn h b key v) a key' = getProp h a key'.
Proof.
  intros Hne. revert a b. induction h as [|o older IH]; intros a b; simpl; [done|].
  destruct (Nat.eqb_spec b (length older)) as [->|Hb];
    destruct (Nat.eqb_spec a (length older)) as [->|Ha];
    destruct o as [p|t hd]; simpl; rewrite ?length_defineOwn, ?Nat.eqb_refl;
    try (destruct (Nat.eqb_spec a (length older)); [lia|]);
    rewrite ?IH; try done.
  by rewrite lookup_insert_ne.
Qed.

(** What [markRaw] does to an object. *)
Lemma markRaw_ref st a :
  ∃ st', markRaw st (VRef a) = Normal (VRef a, st')
    ∧ (st' = st
       ∨ (isExtensible st (VRef a) = true
          ∧ st' = withHeap st (defineOwn (heap st) a SKIP (VBool true)))).
Proof.
  unfold markRaw, hasOwn, def, isExtensible.
  destruct (ordinaryOf (heap st) a) as [[r o]|] eqn:Hord; cbn; [|eauto].
  case_bool_decide as Hown; cbn; [eauto|].
  destruct (extensible o) eqn:Hext; cbn; eauto.
Qed.

(** After [markRaw] an object carries the skip flag, unless it is not
    extensible or owned a falsy skip property before. *)
Lemma markRaw_sets_skip st a st' :
  markRaw st (VRef a) = Normal (VRef a, st') →
  isExtensible st (VRef a) = true →
  (hasOwn st (VRef a) SKIP = Normal true → carries st (VRef a) SKIP = true) →
  carries st' (VRef a) SKIP = true.
Proof.
  unfold markRaw, hasOwn, def, isExtensible. cbn [carries]. rewrite !getProp_skip.
  destruct (ordinaryOf (heap st) a) as [[r o]|] eqn:Hord; [|discriminate].
  case_bool_decide as Hown; cbn.
  - intros [= <-] _ Hskip. rewrite Hord. by apply Hskip.
  - intros Hm Hext _. rewrite Hext in Hm. cbn in Hm. injection Hm as <-.
    cbn [heap withHeap]. rewrite ordinaryOf_defineOwn, Hord, Nat.eqb_refl.
    cbn. by rewrite lookup_insert_eq.
Qed.

(** ** C5: the skip flag is permanent *)

Lemma optedOut_factory m st a :
  optedOut st a → factory m st (VRef a) = Normal (VRef a, st).
Proof.
  intros (Hlt & Hskip & Hreg). apply createReactiveObject_eq.
  destruct (isObject st (VRef a)) eqn:Hobj; [|by constructor].
  destruct (truthy (getProp (heap st) a RAW)) eqn:Hraw;
    [destruct (modeReadonly m) eqn:Hro;
       [destruct (truthy (getProp (heap st) a IS_REACTIVE)) eqn:Hisr|]|].
  2,3: eapply fo_is_proxy; eauto.
  all: eapply fo_invalid; eauto; unfold proceeds; auto.
  all: rewrite getTargetType_ref; cbn [carries] in Hskip.
  all: destruct Hskip as [-> | ->]; by rewrite ?orb_true_r.
Qed.

Lemma optedOut_wrap m st a :
  optedOut st a → wrap m st (VRef a) = Normal (VRef a, st).
Proof.
  intros Hout. rewrite wrap_unfold, (optedOut_factory m st a Hout).
  destruct m; try done. by destruct (carries st (VRef a) IS_READONLY).
Qed.

Lemma optedOut_after_wrap m st v w st' a :
  optedOut st a → wrap m st v = Normal (w, st') → optedOut st' a.
Proof.
  intros Hout. rewrite wrap_unfold.
  assert (factory m st v = Normal (w, st') → optedOut st' a) as Hfac.
  { intros Hf. destruct (factory_outcome m st v) as (w0 & st0 & Hf0 & Hout0).
    rewrite Hf in Hf0. injection Hf0 as <- <-.
    destruct Hout0 as [| | | |t tt -> Hobj Hpro Hget Htt Hvalid]; try done.
    destruct (decide (t = a)) as [->|Hne].
    { pose proof (optedOut_factory m st a Hout) as Hsame.
      rewrite Hf in Hsame. injection Hsame as Hw Hst. by rewrite Hst. }
    destruct Hout as (Hlt & Hskip & Hreg).
    set (hd := if bool_decide (tt = COLLECTION) then _ else _) in *.
    pose proof (heap_registered st t hd (modeMap m)) as Hgrow.
    split_and!.
    - rewrite Hgrow. simpl. lia.
    - by rewrite (grow_carries _ _ _ Hgrow), (grow_isExtensible _ _ _ Hgrow).
    - intros pm. rewrite weakMap_registered. case_decide; [|done].
      subst pm. by rewrite lookup_insert_ne. }
  destruct m; try done.
  destruct (carries st v IS_READONLY); [|done]. by intros [= <- <-].
Qed.

Lemma optedOut_after_markRaw st v w st' a :
  optedOut st a → markRaw st v = Normal (w, st') → optedOut st' a.
Proof.
  intros (Hlt & Hskip & Hreg) Hm.
  assert (st' = st ∨ ∃ b, st' = withHeap st (defineOwn (heap st) b SKIP (VBool true)))
    as [->|[b ->]].
  { destruct v as [| |b0|n|s|b].
    1-5: left;
      cbv [markRaw hasOwn mbind Completion_bind mret Completion_ret
           isExtensible negb andb] in Hm; congruence.
    destruct (markRaw_ref st b) as (st0 & Hm0 & [->|[_ ->]]);
      rewrite Hm in Hm0; injection Hm0 as _ ->; eauto. }
  { done. }
  split_and!.
  - cbn. by rewrite length_defineOwn.
  - cbn [carries isExtensible heap withHeap] in *.
    rewrite !getProp_skip, !ordinaryOf_defineOwn in *.
    destruct (ordinaryOf (heap st) a) as [[r o]|]; [|done].
    destruct (ordinaryOf (heap st) b) as [[r' o']|]; [|done].
    destruct (Nat.eqb r r'); [|done]. cbn.
    destruct Hskip as [Hskip|Hext]; [left|by right].
    by rewrite lookup_insert_eq.
  - intros pm. by rewrite weakMap_withHeap.
Qed.

Lemma optedOut_step st c a : optedOut st a → optedOut (step st c) a.
Proof.
  intros Hout. unfold step.
  destruct (exec c st) as [[w st']|e] eqn:Hexec; [|done].
  destruct c as [m v|v|v|v]; cbn [exec] in Hexec.
  - by eapply optedOut_after_wrap.
  - by eapply optedOut_after_markRaw.
  - unfold toReactive in Hexec. destruct (isObject st v).
    + by eapply (optedOut_after_wrap MutableDeep).
    + by injection Hexec as _ <-.
  - unfold toReadonly in Hexec. destruct (isObject st v).
    + by eapply (optedOut_after_wrap ReadonlyDeep).
    + by injection Hexec as _ <-.
Qed.

Lemma optedOut_run calls st a : optedOut st a → optedOut (run calls st) a.
Proof.
  revert st. induction calls as [|c calls IH]; intros st Hout; [done|].
  apply IH. by apply optedOut_step.
Qed.

Lemma unflagged_after_markRaw st v w st' a :
  unflagged st a → markRaw st v = Normal (w, st') → unflagged st' a.
Proof.
  intros (Hlt & Hr & Hro) Hm.
  assert (st' = st ∨ ∃ b, st' = withHeap st (defineOwn (heap st) b SKIP (VBool true)))
    as [->|[b ->]].
  { destruct v as [| |b0|n|s|b].
    1-5: left;
      cbv [markRaw hasOwn mbind Completion_bind mret Completion_ret
           isExtensible negb andb] in Hm; congruence.
    destruct (markRaw_ref st b) as (st0 & Hm0 & [->|[_ ->]]);
      rewrite Hm in Hm0; injection Hm0 as _ ->; eauto. }
  { done. }
  unfold unflagged. cbn [carries heap withHeap] in *.
  rewrite length_defineOwn, !getProp_defineOwn_other by done. auto.
Qed.

Lemma unflagged_after_wrap m st v w st' a :
  unflagged st a → wrap m st v = Normal (w, st') → unflagged st' a.
Proof.
  intros (Hlt & Hr & Hro). rewrite wrap_unfold.
  assert (factory m st v = Normal (w, st') → unflagged st' a) as Hfac.
  { intros Hf. destruct (factory_outcome m st v) as (w0 & st0 & Hf0 & Hout0).
    rewrite Hf in Hf0. injection Hf0 as <- <-.
    destruct Hout0 as [| | | |t tt -> Hobj Hpro Hget Htt Hvalid]; try done.
    set (hd := if bool_decide (tt = COLLECTION) then _ else _) in *.
    pose proof (heap_registered st t hd (modeMap m)) as Hgrow.
    unfold unflagged. rewrite !(grow_carries _ _ _ Hgrow) by done.
    split_and!; try done. rewrite Hgrow. simpl. lia. }
  destruct m; try done.
  destruct (carries st v IS_READONLY); [|done]. by intros [= <- <-].
Qed.

Lemma unflagged_run calls st a : unflagged st a → unflagged (run calls st) a.
Proof.
  revert st. induction calls as [|c calls IH]; intros st Hun; [done|].
  apply IH. unfold step.
  destruct (exec c st) as [[w st']|e] eqn:Hexec; [|done].
  destruct c as [m v|v|v|v]; cbn [exec] in Hexec.
  - by eapply unflagged_after_wrap.
  - by eapply unflagged_after_markRaw.
  - unfold toReactive in Hexec. destruct (isObject st v).
    + by eapply (unflagged_after_wrap MutableDeep).
    + by injection Hexec as _ <-.
  - unfold toReadonly in Hexec. destruct (isObject st v).
    + by eapply (unflagged_after_wrap ReadonlyDeep).
    + by injection Hexec as _ <-.
Qed.

(** C5 as the specification words it does not hold, in three ways.  An object
    wrapped before it is marked still gets its cached wrapper: after
    [p = reactive(x); markRaw(x)], [reactive(x)] is [p], not [x].  An object
    that owns a falsy skip property is left as it is by [markRaw] and is
    wrapped afterwards.  And a reactive wrapper stays reactive when it is
    marked. *)
Lemma markRaw_does_not_always_unwrap :
  (∃ st2,
     markRaw reactiveCounterState (VRef 0) = Normal (VRef 0, st2)
     ∧ carries st2 (VRef 0) SKIP = true
     ∧ reactive st2 (VRef 0) = Normal (VRef 1, st2)
     ∧ reactive st2 (VRef 0) ≠ Normal (VRef 0, st2))
  ∧ (∃ st2,
       markRaw falsySkipState (VRef 0) = Normal (VRef 0, falsySkipState)
       ∧ reactive falsySkipState (VRef 0) = Normal (VRef 1, st2))
  ∧ (∃ st2,
       markRaw reactiveCounterState (VRef 1) = Normal (VRef 1, st2)
       ∧ isReactive 1 st2 (VRef 1) = Some (Normal true)).
Proof.
  split_and!.
  - eexists. split_and!; try reflexivity. vm_compute. discriminate.
  - eexists. split; reflexivity.
  - eexists. split; reflexivity.
Qed.

(** C5, amended. For every object [x] that has no registry entry (it was
    never wrapped) and owns no falsy skip property: [markRaw(x)] returns [x],
    and from then on, after any further calls into the core, every constructor
    in every mode returns [x] itself and leaves the state unchanged; and
    [isReactive(x)] is false when [x] carries neither the is-reactive nor the
    is-readonly flag itself. *)
Theorem markRaw_opts_out_for_good (st : State) (a : loc) (calls : list Call) (m : Mode) :
  a < length (heap st) →
  (∀ pm, weakMap st pm !! a = None) →
  (hasOwn st (VRef a) SKIP = Normal true → carries st (VRef a) SKIP = true) →
  ∃ st1,
    markRaw st (VRef a) = Normal (VRef a, st1)
    ∧ wrap m (run calls st1) (VRef a) = Normal (VRef a, run calls st1)
    ∧ (carries st (VRef a) IS_REACTIVE = false →
       carries st (VRef a) IS_READONLY = false →
       ∀ fuel, isReactive (S fuel) (run calls st1) (VRef a) = Some (Normal false)).
Proof.
  intros Hlt Hreg Hskip.
  destruct (markRaw_ref st a) as (st1 & Hm & Hst1).
  exists st1. split; [done|].
  assert (optedOut st1 a) as Hout.
  { destruct (isExtensible st (VRef a)) eqn:Hext.
    - pose proof (markRaw_sets_skip _ _ _ Hm Hext Hskip) as Hcar.
      destruct Hst1 as [->|[_ ->]]; (split_and!; [|by left|]).
      + done.
      + done.
      + cbn. by rewrite length_defineOwn.
      + intros pm. by rewrite weakMap_withHeap.
    - destruct Hst1 as [->|[? _]]; [|congruence]. split_and!; auto. }
  split.
  - apply optedOut_wrap. by apply optedOut_run.
  - intros Hr Hro fuel.
    assert (unflagged st1 a) as Hun.
    { eapply unflagged_after_markRaw; [|done]. by split_and!. }
    destruct (unflagged_run calls _ _ Hun) as (_ & Hr' & Hro').
    cbn [carries] in Hr', Hro'. by rewrite isReactive_S, Hro', Hr'.
Qed.

Lemma markRaw_opts_out_for_good_witness :
  ∃ st1,
    markRaw counterState (VRef 0) = Normal (VRef 0, st1)
    ∧ wrap MutableDeep
        (run [CallWrap ReadonlyDeep (VRef 0); CallMarkRaw (VRef 0)] st1) (VRef 0)
      = Normal (VRef 0, run [CallWrap ReadonlyDeep (VRef 0); CallMarkRaw (VRef 0)] st1)
    ∧ (carries counterState (VRef 0) IS_REACTIVE = false →
       carries counterState (VRef 0) IS_READONLY = false →
       ∀ fuel,
         isReactive (S fuel)
           (run [CallWrap ReadonlyDeep (VRef 0); CallMarkRaw (VRef 0)] st1) (VRef 0)
         = Some (Normal false)).
Proof.
  refine (markRaw_opts_out_for_good counterState 0
            [CallWrap ReadonlyDeep (VRef 0); CallMarkRaw (VRef 0)] MutableDeep _ _ _).
  - simpl. lia.
  - intros pm. destruct pm; reflexivity.
  - intros H. vm_compute in H. discriminate.
Defined.

(** ** C6: the classifier *)

Lemma targetTypeMap_COMMON s :
  targetTypeMap s = COMMON ↔ s = "Object" ∨ s = "Array".
Proof.
  unfold targetTypeMap.
  destruct (String.eqb_spec s "Object") as [->|?]; [split; auto|].
  destruct (String.eqb_spec s "Array") as [->|?]; [split; auto|].
  cbn [orb].
  destruct (_ || _ || _ || _); (split; [discriminate|intros [?|?]; congruence]).
Qed.

Lemma targetTypeMap_COLLECTION s :
  targetTypeMap s = COLLECTION
  ↔ s = "Map" ∨ s = "Set" ∨ s = "WeakMap" ∨ s = "WeakSet".
Proof.
  unfold targetTypeMap.
  destruct (String.eqb_spec s "Object") as [->|?];
    [split; [discriminate|intros [?|[?|[?|?]]]; discriminate]|].
  destruct (String.eqb_spec s "Array") as [->|?];
    [split; [discriminate|intros [?|[?|[?|?]]]; discriminate]|].
  cbn [orb].
  destruct (String.eqb_spec s "Map") as [->|?]; [split; auto|].
  destruct (String.eqb_spec s "Set") as [->|?]; [split; auto|].
  destruct (String.eqb_spec s "WeakMap") as [->|?]; [split; auto|].
  destruct (String.eqb_spec s "WeakSet") as [->|?]; [split; auto 6|].
  cbn [orb]. split; [discriminate|intros [?|[?|[?|?]]]; congruence].
Qed.

(** The last part of C6 as the specification words it does not hold after
    [x = {count: 0}; p = reactive(x); Object.freeze(x)]: the classifier answers
    INVALID for [x], and the factory returns [p], the wrapper it had
    registered, not [x]. *)
Lemma invalid_target_gets_cached_wrapper :
  getTargetType frozenAfterWrapState (VRef 0) = Normal INVALID
  ∧ createReactiveObject frozenAfterWrapState (VRef 0) false
      mutableHandlers mutableCollectionHandlers ReactiveMap
    = Normal (VRef 1, frozenAfterWrapState)
  ∧ createReactiveObject frozenAfterWrapState (VRef 0) false
      mutableHandlers mutableCollectionHandlers ReactiveMap
    ≠ Normal (VRef 0, frozenAfterWrapState).
Proof. split_and!; try reflexivity. vm_compute. discriminate. Qed.

(** C6, amended. The classifier always answers.  It answers INVALID for every
    object that carries the skip flag or is not extensible.  Otherwise it
    answers COMMON exactly for the kinds Object and Array, COLLECTION exactly
    for the kinds Map, Set, WeakMap and WeakSet, and INVALID for every other
    kind.  An object classified INVALID that has no entry in the registry
    passed to the factory goes through the factory unchanged. *)
Theorem getTargetType_classifies (st : State) (a : loc) :
  ∃ targetType,
    getTargetType st (VRef a) = Normal targetType
    ∧ (carries st (VRef a) SKIP = true ∨ isExtensible st (VRef a) = false →
       targetType = INVALID)
    ∧ (carries st (VRef a) SKIP = false → isExtensible st (VRef a) = true →
       let kind := toRawType st (VRef a) in
       (targetType = COMMON ↔ kind = "Object" ∨ kind = "Array")
       ∧ (targetType = COLLECTION
          ↔ kind = "Map" ∨ kind = "Set" ∨ kind = "WeakMap" ∨ kind = "WeakSet")
       ∧ (targetType = INVALID
          ↔ ¬ (kind = "Object" ∨ kind = "Array" ∨ kind = "Map" ∨ kind = "Set"
               ∨ kind = "WeakMap" ∨ kind = "WeakSet")))
    ∧ (targetType = INVALID →
       ∀ isReadonly baseHandlers collectionHandlers proxyMap,
         weakMap st proxyMap !! a = None →
         createReactiveObject st (VRef a) isReadonly baseHandlers collectionHandlers proxyMap
         = Normal (VRef a, st)).
Proof.
  eexists. split; [apply getTargetType_ref|]. cbn [carries]. split_and!.
  - intros [-> | ->]; by rewrite ?orb_true_r.
  - intros -> ->. cbn [orb negb].
    set (kind := toRawType st (VRef a)).
    pose proof (targetTypeMap_COMMON kind) as Hcommon.
    pose proof (targetTypeMap_COLLECTION kind) as Hcoll.
    split_and!; [done..|].
    destruct (targetTypeMap kind) eqn:Htt; intuition congruence.
  - intros Htt isReadonly bh ch pm Hget.
    apply createReactiveObject_eq.
    destruct (isObject st (VRef a)) eqn:Hobj; [|by constructor].
    destruct (truthy (getProp (heap st) a RAW)) eqn:Hraw;
      [destruct isReadonly;
         [destruct (truthy (getProp (heap st) a IS_REACTIVE)) eqn:Hisr|]|].
    2,3: eapply fo_is_proxy; eauto.
    all: eapply fo_invalid; eauto; unfold proceeds; auto.
    all: by rewrite getTargetType_ref, Htt.
Qed.

Lemma getTargetType_classifies_witness :
  getTargetType mapState (VRef 0) = Normal COLLECTION
  ∧ getTargetType frozenAfterWrapState (VRef 0) = Normal INVALID
  ∧ createReactiveObject frozenAfterWrapState (VRef 0) true
      readonlyHandlers readonlyCollectionHandlers ReadonlyMap
    = Normal (VRef 0, frozenAfterWrapState).
Proof.
  split; [reflexivity|]. split; [reflexivity|].
  destruct (getTargetType_classifies frozenAfterWrapState 0)
    as (tt & Htt & _ & _ & Hpass).
  apply Hpass; [|reflexivity].
  change (getTargetType frozenAfterWrapState (VRef 0)) with (@Normal TargetType INVALID) in Htt.
  by injection Htt as <-.
Defined.

(** ** C8: no operation throws *)

Lemma genuine_RawChain st v : genuine st → valid st v → ∃ r, RawChain st v r.
Proof.
  intros Hgen Hvalid. destruct v as [| | | | |a].
  1-5: by eexists; apply rc_end.
  induction a as [a IH] using lt_wf_ind.
  destruct (objAt_is_Some _ _ Hvalid) as [o Hobj].
  pose proof (Hgen _ _ Hobj) as Ho. destruct o as [p|t hd].
  - eexists. by apply rc_end.
  - destruct (IH t Ho) as [r Hr]; [simpl in *; lia|].
    exists r. by eapply RawChain_proxy.
Qed.

Example markedAfterReadonlyState_reached :
  ∃ st1, readonly counterState (VRef 0) = Normal (VRef 1, st1)
         ∧ markRaw st1 (VRef 0) = Normal (VRef 0, markedAfterReadonlyState).
Proof. eexists. split; reflexivity. Qed.

(** C8 as the specification words it does not hold, twice.  [isReactive] does
    not return on an object that is flagged readonly and is its own raw value:
    the calls nest without end, which in the program is a stack overflow.  And
    an object the classifier rejects is not returned unchanged when the
    registry has a wrapper for it. *)
Lemma isReactive_diverges_and_ineligible_not_passed_through :
  (¬ ∃ fuel result, isReactive fuel selfReadonlyState (VRef 0) = Some result)
  ∧ getTargetType markedAfterReadonlyState (VRef 0) = Normal INVALID
  ∧ readonly markedAfterReadonlyState (VRef 0) = Normal (VRef 1, markedAfterReadonlyState)
  ∧ readonly markedAfterReadonlyState (VRef 0) ≠ Normal (VRef 0, markedAfterReadonlyState).
Proof.
  split_and!; try reflexivity.
  - intros (fuel & result & H). induction fuel as [|fuel IH]; [discriminate|].
    rewrite isReactive_S in H. apply IH, H.
  - vm_compute. discriminate.
Qed.

(** C8, amended. No constructor throws, on any input, and neither do
    [toReactive], [toReadonly], or [markRaw] on an object; a value that is not
    an object is returned unchanged, and so is an object the classifier
    rejects, provided the registry of the mode has no wrapper for it.
    [isReadonly], [isShallow] and [isProxy] return on every input.
    [isReactive] and [toRaw] return on every input whose chain of raw flags
    ends, which it does wherever only wrappers carry the raw flag.  On a value
    that is not an object all four predicates return false and [toRaw] returns
    the value. *)
Theorem core_degrades_without_throwing (st : State) (v : Value) :
  (∀ m, ∃ w st', wrap m st v = Normal (w, st'))
  ∧ (∃ w st', toReactive st v = Normal (w, st'))
  ∧ (∃ w st', toReadonly st v = Normal (w, st'))
  ∧ (∀ a, v = VRef a → ∃ st', markRaw st v = Normal (v, st'))
  ∧ (∀ m, isObject st v = false → wrap m st v = Normal (v, st))
  ∧ (∀ m, getTargetType st v = Normal INVALID →
          weakMapGet st (modeMap m) v = None →
          wrap m st v = Normal (v, st))
  ∧ (∃ b, isReadonly st v = Normal b)
  ∧ (∃ b, isShallow st v = Normal b)
  ∧ (∃ b, isProxy st v = Normal b)
  ∧ (∀ r, RawChain st v r →
       ∃ n, ∀ fuel, n ≤ fuel →
         (∃ b, isReactive fuel st v = Some (Normal b))
         ∧ toRaw fuel st v = Some (Normal r))
  ∧ (genuine st → valid st v → ∃ r, RawChain st v r)
  ∧ ((∀ a, v ≠ VRef a) →
       isReadonly st v = Normal false
       ∧ isShallow st v = Normal false
       ∧ isProxy st v = Normal false
       ∧ ∀ fuel, isReactive (S fuel) st v = Some (Normal false)
                 ∧ toRaw (S fuel) st v = Some (Normal v)).
Proof.
  assert (∀ m, isObject st v = false → wrap m st v = Normal (v, st)) as Hnonobj.
  { intros m Hobj. rewrite wrap_unfold.
    assert (factory m st v = Normal (v, st)) as ->
      by (apply createReactiveObject_eq; by constructor).
    destruct m; try done. by destruct (carries st v IS_READONLY). }
  split_and!.
  - intros m. apply wrap_normal.
  - unfold toReactive. destruct (isObject st v); [|by eauto].
    apply (wrap_normal MutableDeep).
  - unfold toReadonly. destruct (isObject st v); [|by eauto].
    apply (wrap_normal ReadonlyDeep).
  - intros a ->. destruct (markRaw_ref st a) as (st' & Hm & _). eauto.
  - done.
  - intros m Htt Hget.
    destruct (isObject st v) eqn:Hobj; [|by apply Hnonobj].
    destruct (isObject_inv _ _ Hobj) as (a & r & p & -> & _).
    rewrite wrap_unfold.
    assert (factory m st (VRef a) = Normal (VRef a, st)) as ->.
    { apply createReactiveObject_eq.
      destruct (truthy (getProp (heap st) a RAW)) eqn:Hraw;
        [destruct (modeReadonly m) eqn:Hro;
           [destruct (truthy (getProp (heap st) a IS_REACTIVE)) eqn:Hisr|]|].
      2,3: eapply fo_is_proxy; eauto.
      all: eapply fo_invalid; eauto; unfold proceeds; auto. }
    destruct m; try done. by destruct (carries st (VRef a) IS_READONLY).
  - rewrite isReadonly_carries. eauto.
  - rewrite isShallow_carries. eauto.
  - rewrite isProxy_carries. eauto.
  - intros r Hchain.
    destruct (isReactive_chain _ _ _ Hchain) as [n1 H1].
    destruct (toRaw_chain _ _ _ Hchain) as [n2 H2].
    exists (n1 + n2). intros fuel Hle. split; [apply H1|apply H2]; lia.
  - apply genuine_RawChain.
  - intros Hprim.
    rewrite isReadonly_carries, isShallow_carries, isProxy_carries.
    destruct v as [| | | | |a]; [..|by destruct (Hprim a)]; split_and!; try done.
    all: intros fuel; by rewrite isReactive_S, toRaw_S.
Qed.

Lemma core_degrades_without_throwing_witness :
  readonly counterState VNull = Normal (VNull, counterState)
  ∧ isReadonly counterState VUndefined = Normal false
  ∧ isReactive 1 counterState (VNum 7) = Some (Normal false)
  ∧ ∃ n, ∀ fuel, n ≤ fuel →
      (∃ b, isReactive fuel reactiveCounterState (VRef 1) = Some (Normal b))
      ∧ toRaw fuel reactiveCounterState (VRef 1) = Some (Normal (VRef 0)).
Proof.
  split_and!.
  - exact (proj1 (proj2 (proj2 (proj2 (proj2
             (core_degrades_without_throwing counterState VNull)))))
             ReadonlyDeep eq_refl).
  - reflexivity.
  - reflexivity.
  - refine (proj1 (proj2 (proj2 (proj2 (proj2 (proj2 (proj2 (proj2 (proj2 (proj2
             (core_degrades_without_throwing reactiveCounterState (VRef 1)))))))))))
             (VRef 0) _).
    apply rc_step; [reflexivity|]. apply rc_end; [simpl; lia|reflexivity].
Defined.

(** ** The invariants hold in every state the core reaches *)

Lemma objAt_defineOwn_proxy h a key v p t hd :
  objAt h p = Some (ProxyObj t hd) → objAt (defineOwn h a key v) p = Some (ProxyObj t hd).
Proof.
  intros Hobj. rewrite objAt_defineOwn.
  destruct (ordinaryOf h a) as [[r o]|] eqn:Hord; [|done].
  apply ordinaryOf_inv in Hord as (_ & _ & Hr & _).
  destruct (Nat.eqb_spec p r) as [->|]; [congruence|done].
Qed.

Lemma registry_ok_markRaw st v w st' :
  registry_ok st → markRaw st v = Normal (w, st') → registry_ok st'.
Proof.
  intros Hok Hm.
  assert (st' = st ∨ ∃ b, st' = withHeap st (defineOwn (heap st) b SKIP (VBool true)))
    as [->|[b ->]].
  { destruct v as [| |b0|n|s|b].
    1-5: left;
      cbv [markRaw hasOwn mbind Completion_bind mret Completion_ret
           isExtensible negb andb] in Hm; congruence.
    destruct (markRaw_ref st b) as (st0 & Hm0 & [->|[_ ->]]);
      rewrite Hm in Hm0; injection Hm0 as _ ->; eauto. }
  { done. }
  intros pm k p. rewrite weakMap_withHeap. intros Hget.
  destruct (Hok _ _ _ Hget) as (hd & Hobj & Hmap & Hlt).
  exists hd. split_and!; try done. by apply objAt_defineOwn_proxy.
Qed.

Lemma registry_ok_run calls st : registry_ok st → registry_ok (run calls st).
Proof.
  revert st. induction calls as [|c calls IH]; intros st Hok; [done|].
  apply IH. unfold step.
  destruct (exec c st) as [[w st']|e] eqn:Hexec; [|done].
  destruct c as [m v|v|v|v]; cbn [exec] in Hexec.
  - by eapply registry_ok_wrap.
  - by eapply registry_ok_markRaw.
  - unfold toReactive in Hexec. destruct (isObject st v).
    + by eapply (registry_ok_wrap MutableDeep).
    + by injection Hexec as _ <-.
  - unfold toReadonly in Hexec. destruct (isObject st v).
    + by eapply (registry_ok_wrap ReadonlyDeep).
    + by injection Hexec as _ <-.
Qed.

Lemma wrap_leaves_original_untouched_witness :
  ∃ r st',
    wrap ReadonlyShallow counterState (VRef 0) = Normal (r, st')
    ∧ objAt (heap st') 0 = objAt (heap counterState) 0
    ∧ getProp (heap st') 0 "count" = VNum 0.
Proof.
  destruct (wrap_leaves_original_untouched ReadonlyShallow counterState (VRef 0))
    as (r & st' & Hw & Hframe & _).
  exists r, st'. split; [exact Hw|].
  assert (0 < length (heap counterState)) as Hlt by (simpl; lia).
  destruct (Hframe 0 Hlt) as [Hobj Hget].
  split; [exact Hobj|]. exact (Hget "count").
Defined.

Lemma genuine_empty : genuine emptyState.
Proof. intros a o. discriminate. Qed.

Lemma genuine_alloc st p :
  genuine st → truthy (default VUndefined (props p !! RAW)) = false →
  genuine (alloc st (Ordinary p)).2.
Proof.
  intros Hgen Hraw a o. unfold alloc. cbn [snd carries heap withHeap objAt getProp].
  destruct (Nat.eqb_spec a (length (heap st))); [by intros [= <-]|].
  intros Hobj. apply (Hgen _ _ Hobj).
Qed.

Lemma genuine_wrap m st v w st' :
  genuine st → wrap m st v = Normal (w, st') → genuine st'.
Proof.
  intros Hgen. rewrite wrap_unfold.
  assert (factory m st v = Normal (w, st') → genuine st') as Hfac.
  { intros Hf. destruct (factory_outcome m st v) as (w0 & st0 & Hf0 & Hout).
    rewrite Hf in Hf0. injection Hf0 as <- <-.
    destruct Hout as [| | | |t tt -> Hobj _ _ _ _]; try done.
    pose proof (isObject_lt _ _ Hobj) as Hlt.
    intros a o. rewrite heap_registered. cbn [carries objAt getProp].
    rewrite heap_registered. cbn [getProp].
    destruct (Nat.eqb_spec a (length (heap st))) as [->|]; [by intros [= <-]|].
    intros Ho. apply (Hgen _ _ Ho). }
  destruct m; try done.
  destruct (carries st v IS_READONLY); [|done]. by intros [= <- <-].
Qed.

Lemma genuine_markRaw st v w st' :
  genuine st → markRaw st v = Normal (w, st') → genuine st'.
Proof.
  intros Hgen Hm.
  assert (st' = st ∨ ∃ b, st' = withHeap st (defineOwn (heap st) b SKIP (VBool true)))
    as [->|[b ->]].
  { destruct v as [| |b0|n|s|b].
    1-5: left;
      cbv [markRaw hasOwn mbind Completion_bind mret Completion_ret
           isExtensible negb andb] in Hm; congruence.
    destruct (markRaw_ref st b) as (st0 & Hm0 & [->|[_ ->]]);
      rewrite Hm in Hm0; injection Hm0 as _ ->; eauto. }
  { done. }
  intros a o. cbn [carries heap withHeap].
  rewrite objAt_defineOwn, getProp_defineOwn_other by done.
  destruct (ordinaryOf (heap st) b) as [[r p]|] eqn:Hord; [|apply Hgen].
  apply ordinaryOf_inv in Hord as (_ & _ & Hr & _).
  destruct (Nat.eqb_spec a r) as [->|]; [|apply Hgen].
  intros [= <-]. apply (Hgen _ _ Hr).
Qed.

Lemma genuine_run calls st : genuine st → genuine (run calls st).
Proof.
  revert st. induction calls as [|c calls IH]; intros st Hgen; [done|].
  apply IH. unfold step.
  destruct (exec c st) as [[w st']|e] eqn:Hexec; [|done].
  destruct c as [m v|v|v|v]; cbn [exec] in Hexec.
  - by eapply genuine_wrap.
  - by eapply genuine_markRaw.
  - unfold toReactive in Hexec. destruct (isObject st v).
    + by eapply (genuine_wrap MutableDeep).
    + by injection Hexec as _ <-.
  - unfold toReadonly in Hexec. destruct (isObject st v).
    + by eapply (genuine_wrap ReadonlyDeep).
    + by injection Hexec as _ <-.
Qed.


(** ** The scenarios of the specification *)

Example ineligible_inputs_pass_through :
  let st := (alloc (alloc counterState (function [])).2
               (frozenObject "Object" [("a", VNum 1)])).2 in
  reactive st (VNum 3) = Normal (VNum 3, st)
  ∧ reactive st VNull = Normal (VNull, st)
  ∧ reactive st (VRef 1) = Normal (VRef 1, st)
  ∧ reactive st (VRef 2) = Normal (VRef 2, st).
Proof. split_and!; reflexivity. Qed.

Example same_wrapper_twice :
  ∃ a st1,
    reactive counterState (VRef 0) = Normal (a, st1)
    ∧ reactive st1 (VRef 0) = Normal (a, st1)
    ∧ getV st1 a "count" = Normal (VNum 0).
Proof. eexists _, _. split_and!; reflexivity. Qed.

Example readonly_of_plain_object :
  ∃ r st1,
    readonly counterState (VRef 0) = Normal (r, st1)
    ∧ isReadonly st1 r = Normal true
    ∧ isReactive 2 st1 r = Some (Normal false)
    ∧ toRaw 2 st1 r = Some (Normal (VRef 0)).
Proof. eexists _, _. split_and!; reflexivity. Qed.

(** ** Identity stability across further calls *)

Lemma isObject_defineOwn st b key v a :
  isObject (withHeap st (defineOwn (heap st) b key v)) (VRef a) = isObject st (VRef a).
Proof.
  cbn [isObject heap withHeap]. rewrite ordinaryOf_defineOwn.
  destruct (ordinaryOf (heap st) a) as [[r o]|]; [|done].
  destruct (ordinaryOf (heap st) b) as [[r' o']|]; [|done].
  by destruct (Nat.eqb r r').
Qed.

(** Marking never makes an object eligible again. *)
Lemma getTargetType_INVALID_defineOwn st b a :
  getTargetType st (VRef a) = Normal INVALID →
  getTargetType (withHeap st (defineOwn (heap st) b SKIP (VBool true))) (VRef a)
  = Normal INVALID.
Proof.
  rewrite !getTargetType_ref. cbn [isExtensible toRawType heap withHeap].
  rewrite !getProp_skip, !ordinaryOf_defineOwn.
  destruct (ordinaryOf (heap st) a) as [[r o]|]; [|done].
  destruct (ordinaryOf (heap st) b) as [[r' o']|]; [|done].
  destruct (Nat.eqb r r'); [|done]. cbn. rewrite lookup_insert_eq. cbn. done.
Qed.

Lemma registered_ne st a hd pm : registered st a hd pm ≠ st.
Proof.
  intros Heq. pose proof (heap_registered st a hd pm) as Hh.
  rewrite Heq in Hh. apply (f_equal length) in Hh. simpl in Hh. lia.
Qed.

(** An answer that changes nothing carries over to a state in which the
    readonly flag of [x] and the outcome of the factory on [x] are the same. *)
Lemma wrap_transfer m st st' x w :
  carries st' x IS_READONLY = carries st x IS_READONLY →
  (FactoryOutcome st x (modeReadonly m) (modeBaseHandlers m)
     (modeCollectionHandlers m) (modeMap m) w st →
   FactoryOutcome st' x (modeReadonly m) (modeBaseHandlers m)
     (modeCollectionHandlers m) (modeMap m) w st') →
  wrap m st x = Normal (w, st) → wrap m st' x = Normal (w, st').
Proof.
  intros Hro Hout. rewrite !wrap_unfold, Hro.
  assert (factory m st x = Normal (w, st) → factory m st' x = Normal (w, st')) as Hfac.
  { intros Hf. destruct (factory_outcome m st x) as (w0 & st0 & Hf0 & Hout0).
    rewrite Hf in Hf0. injection Hf0 as <- <-.
    by apply createReactiveObject_eq, Hout. }
  destruct m; try done.
  destruct (carries st x IS_READONLY); [|done]. by intros [= <-].
Qed.

Lemma settled_after_wrap m st x w m' v w' st' :
  valid st x →
  wrap m st x = Normal (w, st) →
  wrap m' st v = Normal (w', st') →
  wrap m st' x = Normal (w, st').
Proof.
  intros Hvalid Hset. rewrite (wrap_unfold m').
  assert (factory m' st v = Normal (w', st') → wrap m st' x = Normal (w, st')) as Hfac.
  { intros Hf. destruct (factory_outcome m' st v) as (w0 & st0 & Hf0 & Hout0).
    rewrite Hf in Hf0. injection Hf0 as <- <-.
    destruct Hout0 as [| | | |t tt -> Hobjt Hprot Hgett Httt Hvalidt]; try done.
    set (hd := if bool_decide (tt = COLLECTION) then _ else _) in *.
    pose proof (heap_registered st t hd (modeMap m')) as Hgrow.
    destruct x as [| | | | |a].
    1-5: revert Hset; apply wrap_transfer; [done|];
         inversion 1; try discriminate; by constructor.
    simpl in Hvalid. revert Hset. apply wrap_transfer.
    { by apply (grow_carries _ _ _ Hgrow). }
    intros Hout.
    inversion Hout as [Hno|a' Ha Hobj Hraw Hnot|a' e Ha Hobj Hpro Hget
                      |a' Ha Hobj Hpro Hget Htt|a' tt' Ha Hobj Hpro Hget Htt Hv Hw Hst];
      try (injection Ha as <-); subst.
    - constructor. by rewrite (grow_isObject _ _ _ Hgrow).
    - eapply fo_is_proxy; [done|..].
      + by rewrite (grow_isObject _ _ _ Hgrow).
      + by rewrite (grow_getProp _ _ _ Hgrow).
      + by rewrite (grow_getProp _ _ _ Hgrow).
    - eapply fo_existing; [done|..].
      + by rewrite (grow_isObject _ _ _ Hgrow).
      + unfold proceeds. by rewrite !(grow_getProp _ _ _ Hgrow).
      + rewrite weakMap_registered. case_decide as Hpm; [|done].
        rewrite Hpm in Hgett |- *.
        rewrite lookup_insert_ne; [done|]. intros ->. congruence.
    - eapply fo_invalid; [done|..].
      + by rewrite (grow_isObject _ _ _ Hgrow).
      + unfold proceeds. by rewrite !(grow_getProp _ _ _ Hgrow).
      + rewrite weakMap_registered. case_decide as Hpm; [|done].
        rewrite Hpm in Hgett |- *.
        rewrite lookup_insert_ne; [done|]. intros ->. congruence.
      + by rewrite (grow_getTargetType _ _ _ Hgrow).
    - exfalso. by eapply registered_ne. }
  destruct m'; try done.
  destruct (carries st v IS_READONLY); [|done]. by intros [= <- <-].
Qed.

Lemma settled_after_markRaw m st x w v w' st' :
  wrap m st x = Normal (w, st) →
  markRaw st v = Normal (w', st') →
  wrap m st' x = Normal (w, st').
Proof.
  intros Hset Hm.
  assert (st' = st ∨ ∃ b, st' = withHeap st (defineOwn (heap st) b SKIP (VBool true)))
    as [->|[b ->]].
  { destruct v as [| |b0|n|s|b].
    1-5: left;
      cbv [markRaw hasOwn mbind Completion_bind mret Completion_ret
           isExtensible negb andb] in Hm; congruence.
    destruct (markRaw_ref st b) as (st0 & Hm0 & [->|[_ ->]]);
      rewrite Hm in Hm0; injection Hm0 as _ ->; eauto. }
  { done. }
  set (st' := withHeap st _).
  destruct x as [| | | | |a].
  1-5: revert Hset; apply wrap_transfer; [done|];
       inversion 1; try discriminate; by constructor.
  assert (∀ key, key ≠ SKIP →
            getProp (heap st') a key = getProp (heap st) a key) as Hflag.
  { intros key Hkey. by apply getProp_defineOwn_other. }
  revert Hset. apply wrap_transfer.
  { cbn [carries]. by rewrite Hflag. }
  intros Hout.
  inversion Hout as [Hno|a' Ha Hobj Hraw Hnot|a' e Ha Hobj Hpro Hget
                    |a' Ha Hobj Hpro Hget Htt|a' tt' Ha Hobj Hpro Hget Htt Hv Hw Hst];
    try (injection Ha as <-); subst.
  - constructor. unfold st'. by rewrite isObject_defineOwn.
  - eapply fo_is_proxy; [done|..].
    + unfold st'. by rewrite isObject_defineOwn.
    + by rewrite Hflag.
    + by rewrite Hflag.
  - eapply fo_existing; [done|..].
    + unfold st'. by rewrite isObject_defineOwn.
    + unfold proceeds. by rewrite !Hflag.
    + unfold st'. by rewrite weakMap_withHeap.
  - eapply fo_invalid; [done|..].
    + unfold st'. by rewrite isObject_defineOwn.
    + unfold proceeds. by rewrite !Hflag.
    + unfold st'. by rewrite weakMap_withHeap.
    + by apply getTargetType_INVALID_defineOwn.
  - exfalso. by eapply registered_ne.
Qed.

Lemma valid_after_wrap m st v w st' x :
  valid st x → wrap m st v = Normal (w, st') → valid st' x.
Proof.
  intros Hvalid. rewrite wrap_unfold.
  assert (factory m st v = Normal (w, st') → valid st' x) as Hfac.
  { intros Hf. destruct (factory_outcome m st v) as (w0 & st0 & Hf0 & Hout0).
    rewrite Hf in Hf0. injection Hf0 as <- <-.
    destruct Hout0; try done.
    destruct x; try done. simpl in *. rewrite heap_registered. simpl. lia. }
  destruct m; try done.
  destruct (carries st v IS_READONLY); [|done]. by intros [= <- <-].
Qed.

Lemma valid_after_markRaw st v w st' x :
  valid st x → markRaw st v = Normal (w, st') → valid st' x.
Proof.
  intros Hvalid Hm.
  assert (st' = st ∨ ∃ b, st' = withHeap st (defineOwn (heap st) b SKIP (VBool true)))
    as [->|[b ->]].
  { destruct v as [| |b0|n|s|b].
    1-5: left;
      cbv [markRaw hasOwn mbind Completion_bind mret Completion_ret
           isExtensible negb andb] in Hm; congruence.
    destruct (markRaw_ref st b) as (st0 & Hm0 & [->|[_ ->]]);
      rewrite Hm in Hm0; injection Hm0 as _ ->; eauto. }
  { done. }
  destruct x; try done. simpl in *. by rewrite length_defineOwn.
Qed.

(** Once a constructor answers [w] for [x] without changing the state, it
    goes on doing so whatever further calls are made. *)
Lemma settled_run m x w calls st :
  valid st x → wrap m st x = Normal (w, st) →
  wrap m (run calls st) x = Normal (w, run calls st).
Proof.
  revert st. induction calls as [|c calls IH]; intros st Hvalid Hset; [done|].
  cbn [run foldl]. fold (run calls (step st c)).
  unfold step. destruct (exec c st) as [[w' st']|e] eqn:Hexec; [|by apply IH].
  destruct c as [m' v|v|v|v]; cbn [exec] in Hexec.
  - apply IH; [by eapply valid_after_wrap|by eapply settled_after_wrap].
  - apply IH; [by eapply valid_after_markRaw|by eapply settled_after_markRaw].
  - unfold toReactive in Hexec. destruct (isObject st v).
    + apply IH; [by eapply (valid_after_wrap MutableDeep)
                |by eapply (settled_after_wrap _ _ _ _ MutableDeep)].
    + injection Hexec as _ <-. by apply IH.
  - unfold toReadonly in Hexec. destruct (isObject st v).
    + apply IH; [by eapply (valid_after_wrap ReadonlyDeep)
                |by eapply (settled_after_wrap _ _ _ _ ReadonlyDeep)].
    + injection Hexec as _ <-. by apply IH.
Qed.

(** ** C1: the result *)

Lemma valid_result m st x w st1 :
  registry_ok st → valid st x → wrap m st x = Normal (w, st1) → valid st1 w.
Proof.
  intros Hok Hvalid Hw.
  pose proof (valid_after_wrap _ _ _ _ _ _ Hvalid Hw) as Hx.
  revert Hw. rewrite wrap_unfold.
  assert (factory m st x = Normal (w, st1) → valid st1 w) as Hfac.
  { intros Hf. destruct (factory_outcome m st x) as (w0 & st0 & Hf0 & Hout).
    rewrite Hf in Hf0. injection Hf0 as <- <-.
    destruct Hout as [| |a e -> _ _ Hget| |a tt -> _ _ _ _ _]; try done.
    - destruct (Hok _ _ _ Hget) as (hd & Hobj & _). simpl. by eapply objAt_lt.
    - simpl. rewrite heap_registered. simpl. lia. }
  destruct m; try done.
  destruct (carries st x IS_READONLY); [|done]. by intros [= <- <-].
Qed.

(** C1. For every value [x] of the program and every mode [m], in a state
    whose registries hold what the factory put there: a constructor call
    returns some [w]; every later call with the same [x] and [m], whatever
    calls into the core were made in between, returns the same [w]; wrapping
    [w] again in mode [m] returns [w] itself; and these later calls change
    nothing.  When [x] is eligible, [w] is a wrapper of mode [m] over [x].
    And every wrapper of mode [m] there is, wrapped again in mode [m], comes
    back as it is. *)
Theorem wrap_idempotent_identity_stable (m : Mode) (st : State) (x : Value) :
  registry_ok st → valid st x →
  (∃ w st1,
     wrap m st x = Normal (w, st1)
     ∧ (∀ calls,
          wrap m (run calls st1) x = Normal (w, run calls st1)
          ∧ wrap m (run calls st1) w = Normal (w, run calls st1))
     ∧ (eligible st x → ∃ a, x = VRef a ∧ wrapperOf st1 m a w))
  ∧ (∀ p t hd,
       objAt (heap st) p = Some (ProxyObj t hd) → handlerMap hd = modeMap m →
       wrap m st (VRef p) = Normal (VRef p, st)).
Proof.
  intros Hok Hvalid. split.
  - destruct (wrap_again m st x Hok) as (w & st1 & Hw & Hx & Hww & Hel).
    exists w, st1. split_and!; try done.
    intros calls. split; apply settled_run; try done.
    + by eapply valid_after_wrap.
    + by eapply valid_result.
  - intros p t hd. apply wrap_wrapper.
Qed.

Lemma wrap_idempotent_identity_stable_witness :
  registry_ok counterState ∧ valid counterState (VRef 0)
  ∧ ∃ w st1,
      wrap ReadonlyDeep counterState (VRef 0) = Normal (w, st1)
      ∧ (∀ calls,
           wrap ReadonlyDeep (run calls st1) (VRef 0) = Normal (w, run calls st1)
           ∧ wrap ReadonlyDeep (run calls st1) w = Normal (w, run calls st1))
      ∧ (eligible counterState (VRef 0) →
         ∃ a, VRef 0 = VRef a ∧ wrapperOf st1 ReadonlyDeep a w).
Proof.
  assert (valid counterState (VRef 0)) as Hvalid by (simpl; lia).
  split; [exact registry_ok_counterState|].
  split; [exact Hvalid|].
  exact (proj1 (wrap_idempotent_identity_stable ReadonlyDeep counterState (VRef 0)
                  registry_ok_counterState Hvalid)).
Defined.

(** * Further properties of reactive.ts *)

(** ** toReactive and toReadonly *)



(** ** What toRaw and isReactive return *)

Lemma toRaw_returns fuel st v res :
  toRaw fuel st v = Some res →
  ∃ r, res = Normal r
       ∧ carries st r RAW = false
       ∧ ∀ more, toRaw (fuel + more) st v = Some (Normal r).
Proof.
  revert v. induction fuel as [|fuel IH]; intros v; [discriminate|].
  rewrite toRaw_S. destruct v as [| | | | |a];
    try (intros [= <-]; eexists; split_and!; try done;
         intros more; by rewrite (Nat.add_succ_l fuel more), toRaw_S).
  destruct (truthy (getProp (heap st) a RAW)) eqn:Hraw.
  - intros Hrec. destruct (IH _ Hrec) as (r & -> & Hr & Hmore).
    exists r. split_and!; try done.
    intros more. by rewrite (Nat.add_succ_l fuel more), toRaw_S, Hraw.
  - intros [= <-]. eexists. split_and!; try done.
    intros more. by rewrite (Nat.add_succ_l fuel more), toRaw_S, Hraw.
Qed.

(** X7. [toRaw] never throws.  Whenever it returns, its result carries no raw
    flag, so [isProxy] is false on it and [toRaw] maps it to itself: [toRaw]
    is idempotent.  The result does not depend on how deep the calls may
    nest. *)
Theorem toRaw_idempotent (fuel : nat) (st : State) (v : Value) (res : Completion Value) :
  toRaw fuel st v = Some res →
  ∃ r, res = Normal r
       ∧ isProxy st r = Normal false
       ∧ (∀ fuel', toRaw (S fuel') st r = Some (Normal r))
       ∧ (∀ more, toRaw (fuel + more) st v = Some (Normal r)).
Proof.
  intros Hres. destruct (toRaw_returns _ _ _ _ Hres) as (r & -> & Hr & Hmore).
  exists r. split_and!; try done.
  - by rewrite isProxy_carries, Hr.
  - intros fuel'. rewrite toRaw_S. destruct r; try done.
    simpl in Hr. by rewrite Hr.
Qed.

Lemma toRaw_idempotent_witness :
  toRaw 2 reactiveCounterState (VRef 1) = Some (Normal (VRef 0))
  ∧ ∃ r, Normal (VRef 0) = Normal r
         ∧ isProxy reactiveCounterState r = Normal false
         ∧ (∀ fuel', toRaw (S fuel') reactiveCounterState r = Some (Normal r))
         ∧ (∀ more, toRaw (2 + more) reactiveCounterState (VRef 1) = Some (Normal r)).
Proof.
  split; [reflexivity|].
  exact (toRaw_idempotent 2 reactiveCounterState (VRef 1) (Normal (VRef 0)) eq_refl).
Defined.

Lemma isReactive_returns fuel st v res :
  isReactive fuel st v = Some res →
  ∃ b, res = Normal b ∧ ∀ more, isReactive (fuel + more) st v = Some (Normal b).
Proof.
  revert v. induction fuel as [|fuel IH]; intros v; [discriminate|].
  rewrite isReactive_S. destruct v as [| | | | |a];
    try (intros [= <-]; eexists; split; [done|];
         intros more; by rewrite (Nat.add_succ_l fuel more), isReactive_S).
  destruct (truthy (getProp (heap st) a IS_READONLY)) eqn:Hro.
  - intros Hrec. destruct (IH _ Hrec) as (b & -> & Hmore).
    exists b. split; [done|].
    intros more. by rewrite (Nat.add_succ_l fuel more), isReactive_S, Hro.
  - intros [= <-]. eexists. split; [done|].
    intros more. by rewrite (Nat.add_succ_l fuel more), isReactive_S, Hro.
Qed.

(** X12. [isReactive] never throws, and what it returns does not depend on
    how deep the calls may nest.  On a value flagged readonly it is the answer
    for the raw value and the value's own is-reactive flag is not looked at:
    flagged readonly with a raw value that is not an object, a value is never
    reactive. *)
Theorem isReactive_of_readonly (fuel : nat) (st : State) (v : Value)
    (res : Completion bool) :
  isReactive fuel st v = Some res →
  (∃ b, res = Normal b ∧ ∀ more, isReactive (fuel + more) st v = Some (Normal b))
  ∧ (carries st v IS_READONLY = true →
     ∃ a, v = VRef a
          ∧ (∀ fuel', isReactive (S fuel') st v
                      = isReactive fuel' st (getProp (heap st) a RAW))
          ∧ ((∀ b, getProp (heap st) a RAW ≠ VRef b) → res = Normal false)).
Proof.
  intros Hres. split; [by eapply isReactive_returns|].
  intros Hro. destruct (carries_ref _ _ _ Hro) as [a ->]. simpl in Hro.
  exists a. split_and!; try done.
  - intros fuel'. by rewrite isReactive_S, Hro.
  - intros Hprim. destruct fuel as [|[|fuel]]; try discriminate.
    + rewrite isReactive_S, Hro in Hres. discriminate.
    + rewrite isReactive_S, Hro, isReactive_S in Hres.
      destruct (getProp (heap st) a RAW) as [| | | | |b]; try congruence.
      by destruct (Hprim b).
Qed.

Lemma isReactive_of_readonly_witness :
  isReactive 2 spoofState (VRef 1) = Some (Normal false)
  ∧ ∃ b, Normal false = Normal b
         ∧ ∀ more, isReactive (2 + more) spoofState (VRef 1) = Some (Normal b).
Proof.
  split; [reflexivity|].
  exact (proj1 (isReactive_of_readonly 2 spoofState (VRef 1) (Normal false) eq_refl)).
Defined.

(** ** The registries only grow *)

Lemma registry_persist_wrap m st v w st' pm k p :
  weakMap st pm !! k = Some p → wrap m st v = Normal (w, st') →
  weakMap st' pm !! k = Some p.
Proof.
  intros Hget. rewrite wrap_unfold.
  assert (factory m st v = Normal (w, st') → weakMap st' pm !! k = Some p) as Hfac.
  { intros Hf. destruct (factory_outcome m st v) as (w0 & st0 & Hf0 & Hout).
    rewrite Hf in Hf0. injection Hf0 as <- <-.
    destruct Hout as [| | | |t tt -> _ _ Hnone _ _]; try done.
    rewrite weakMap_registered.
    destruct (decide (modeMap m = pm)) as [Hpm|Hpm]; [|done]. subst pm.
    rewrite lookup_insert_ne; [done|]. intros ->. congruence. }
  destruct m; try done.
  destruct (carries st v IS_READONLY); [|done]. by intros [= <- <-].
Qed.

Lemma markRaw_state st v w st' :
  markRaw st v = Normal (w, st') →
  st' = st ∨ ∃ b, st' = withHeap st (defineOwn (heap st) b SKIP (VBool true)).
Proof.
  intros Hm. destruct v as [| |b0|n|s|b].
  1-5: left;
    cbv [markRaw hasOwn mbind Completion_bind mret Completion_ret
         isExtensible negb andb] in Hm; congruence.
  destruct (markRaw_ref st b) as (st0 & Hm0 & [->|[_ ->]]);
    rewrite Hm in Hm0; injection Hm0 as _ ->; eauto.
Qed.

Lemma registry_persist_run calls st pm k p :
  weakMap st pm !! k = Some p → weakMap (run calls st) pm !! k = Some p.
Proof.
  revert st. induction calls as [|c calls IH]; intros st Hget; [done|].
  apply IH. unfold step.
  destruct (exec c st) as [[w st']|e] eqn:Hexec; [|done].
  destruct c as [m v|v|v|v]; cbn [exec] in Hexec.
  - by eapply registry_persist_wrap.
  - destruct (markRaw_state _ _ _ _ Hexec) as [->|[b ->]]; [done|].
    by rewrite weakMap_withHeap.
  - unfold toReactive in Hexec. destruct (isObject st v).
    + by eapply (registry_persist_wrap MutableDeep).
    + by injection Hexec as _ <-.
  - unfold toReadonly in Hexec. destruct (isObject st v).
    + by eapply (registry_persist_wrap ReadonlyDeep).
    + by injection Hexec as _ <-.
Qed.

Lemma registry_injective st pm k p pm' k' :
  registry_ok st →
  weakMap st pm !! k = Some p → weakMap st pm' !! k' = Some p →
  pm = pm' ∧ k = k'.
Proof.
  intros Hok H1 H2.
  destruct (Hok _ _ _ H1) as (hd & Hobj & Hmap & _).
  destruct (Hok _ _ _ H2) as (hd' & Hobj' & Hmap' & _).
  rewrite Hobj in Hobj'. injection Hobj' as -> ->. by subst.
Qed.

(** X8. A registry entry is for good: whatever calls into the core follow, the
    entry from [k] to [p] stays as it is, never evicted and never replaced.
    The wrapper [p] reads back its key through the raw flag, and it stands in
    no other registry and under no other key: a wrapper determines its target
    and its mode. *)
Theorem registry_entries_permanent (st : State) (pm : ProxyMap) (k p : loc)
    (calls : list Call) :
  registry_ok st →
  weakMap st pm !! k = Some p →
  weakMap (run calls st) pm !! k = Some p
  ∧ getV (run calls st) (VRef p) RAW = Normal (VRef k)
  ∧ ∀ pm' k', weakMap (run calls st) pm' !! k' = Some p → pm' = pm ∧ k' = k.
Proof.
  intros Hok Hget.
  pose proof (registry_ok_run calls _ Hok) as Hok'.
  pose proof (registry_persist_run calls _ _ _ _ Hget) as Hget'.
  split_and!; try done.
  - destruct (Hok' _ _ _ Hget') as (hd & Hobj & _).
    cbn [getV]. by destruct (getProp_proxy_flags _ _ _ _ Hobj) as (-> & _).
  - intros pm' k' Hget''.
    by destruct (registry_injective _ _ _ _ _ _ Hok' Hget'' Hget').
Qed.

Lemma registry_ok_reactiveCounterState : registry_ok reactiveCounterState.
Proof.
  apply registry_ok_registered; [apply registry_ok_counterState|done|simpl; lia].
Qed.

Lemma registry_entries_permanent_witness :
  registry_ok reactiveCounterState
  ∧ reactiveMap reactiveCounterState !! 0 = Some 1
  ∧ reactiveMap
      (run [CallMarkRaw (VRef 0); CallWrap MutableDeep (VRef 0)] reactiveCounterState)
    !! 0 = Some 1.
Proof.
  split; [exact registry_ok_reactiveCounterState|]. split; [reflexivity|].
  exact (proj1 (registry_entries_permanent reactiveCounterState ReactiveMap 0 1
                  [CallMarkRaw (VRef 0); CallWrap MutableDeep (VRef 0)]
                  registry_ok_reactiveCounterState eq_refl)).
Defined.

(** ** Ineligible stays ineligible *)

Lemma invalid_after_wrap m st v w st' a :
  a < length (heap st) →
  getTargetType st (VRef a) = Normal INVALID →
  wrap m st v = Normal (w, st') →
  getTargetType st' (VRef a) = Normal INVALID.
Proof.
  intros Hlt Hinv. rewrite wrap_unfold.
  assert (factory m st v = Normal (w, st') →
          getTargetType st' (VRef a) = Normal INVALID) as Hfac.
  { intros Hf. destruct (factory_outcome m st v) as (w0 & st0 & Hf0 & Hout).
    rewrite Hf in Hf0. injection Hf0 as <- <-.
    destruct Hout as [| | | |t tt -> _ _ _ _ _]; try done.
    set (hd := if bool_decide (tt = COLLECTION) then _ else _).
    by rewrite (grow_getTargetType _ _ _ (heap_registered st t hd (modeMap m))). }
  destruct m; try done.
  destruct (carries st v IS_READONLY); [|done]. by intros [= <- <-].
Qed.

(** X9. Nothing the core does makes an ineligible object eligible: an object
    the classifier rejects is rejected after any further calls to the
    constructors, to [markRaw], to [toReactive] and to [toReadonly]. *)
Theorem invalid_is_permanent (st : State) (a : loc) (calls : list Call) :
  a < length (heap st) →
  getTargetType st (VRef a) = Normal INVALID →
  getTargetType (run calls st) (VRef a) = Normal INVALID.
Proof.
  revert st. induction calls as [|c calls IH]; intros st Hlt Hinv; [done|].
  cbn [run foldl]. fold (run calls (step st c)).
  assert (valid st (VRef a)) as Hvalid by done.
  unfold step. destruct (exec c st) as [[w st']|e] eqn:Hexec; [|by apply IH].
  destruct c as [m v|v|v|v]; cbn [exec] in Hexec.
  - apply IH; [by apply (valid_after_wrap _ _ _ _ _ _ Hvalid Hexec)
              |by eapply invalid_after_wrap].
  - apply IH; [by apply (valid_after_markRaw _ _ _ _ _ Hvalid Hexec)|].
    destruct (markRaw_state _ _ _ _ Hexec) as [->|[b ->]]; [done|].
    by apply getTargetType_INVALID_defineOwn.
  - unfold toReactive in Hexec. destruct (isObject st v).
    + apply IH; [by apply (valid_after_wrap MutableDeep _ _ _ _ _ Hvalid Hexec)
                |by eapply (invalid_after_wrap MutableDeep)].
    + injection Hexec as _ <-. by apply IH.
  - unfold toReadonly in Hexec. destruct (isObject st v).
    + apply IH; [by apply (valid_after_wrap ReadonlyDeep _ _ _ _ _ Hvalid Hexec)
                |by eapply (invalid_after_wrap ReadonlyDeep)].
    + injection Hexec as _ <-. by apply IH.
Qed.

Lemma invalid_is_permanent_witness :
  getTargetType kindsState (VRef 1) = Normal INVALID
  ∧ getTargetType
      (run [CallWrap ReadonlyDeep (VRef 0); CallMarkRaw (VRef 1)] kindsState) (VRef 1)
    = Normal INVALID.
Proof.
  split; [reflexivity|].
  refine (invalid_is_permanent kindsState 1
            [CallWrap ReadonlyDeep (VRef 0); CallMarkRaw (VRef 1)] _ eq_refl).
  simpl. lia.
Defined.

(** ** The four modes side by side *)

Lemma eligible_after_wrap m st v w st' x :
  eligible st x → wrap m st v = Normal (w, st') → eligible st' x.
Proof.
  intros Hel. rewrite wrap_unfold.
  assert (factory m st v = Normal (w, st') → eligible st' x) as Hfac.
  { intros Hf. destruct (factory_outcome m st v) as (w0 & st0 & Hf0 & Hout).
    rewrite Hf in Hf0. injection Hf0 as <- <-.
    destruct Hout as [| | | |t tt _ _ _ _ _ _]; try done.
    set (hd := if bool_decide (tt = COLLECTION) then _ else _).
    pose proof (heap_registered st t hd (modeMap m)) as Hgrow.
    destruct Hel as (Hobj & Hclass & Hraw & Hro).
    destruct (isObject_inv _ _ Hobj) as (a & r & o & -> & _).
    pose proof (isObject_lt _ _ Hobj) as Hlt.
    unfold eligible.
    by rewrite (grow_isObject _ _ _ Hgrow), (grow_getTargetType _ _ _ Hgrow),
      !(grow_carries _ _ _ Hgrow). }
  destruct m; try done.
  destruct (carries st v IS_READONLY); [|done]. by intros [= <- <-].
Qed.

(** X1. The four modes are independent.  Wrapping one eligible object with
    the four constructors in turn gives four wrappers, no two of them the
    same, each built over the object and each recorded in the registry of its
    own mode; after the last call all four entries are there, and each
    constructor still answers with its own wrapper. *)
Theorem four_modes_four_wrappers (st : State) (x : Value) :
  registry_ok st → eligible st x →
  ∃ a p1 p2 p3 p4 st1 st2 st3 st4,
    x = VRef a
    ∧ reactive st x = Normal (VRef p1, st1)
    ∧ shallowReactive st1 x = Normal (VRef p2, st2)
    ∧ readonly st2 x = Normal (VRef p3, st3)
    ∧ shallowReadonly st3 x = Normal (VRef p4, st4)
    ∧ NoDup [p1; p2; p3; p4]
    ∧ reactiveMap st4 !! a = Some p1
    ∧ shallowReactiveMap st4 !! a = Some p2
    ∧ readonlyMap st4 !! a = Some p3
    ∧ shallowReadonlyMap st4 !! a = Some p4
    ∧ reactive st4 x = Normal (VRef p1, st4)
    ∧ shallowReactive st4 x = Normal (VRef p2, st4)
    ∧ readonly st4 x = Normal (VRef p3, st4)
    ∧ shallowReadonly st4 x = Normal (VRef p4, st4).
Proof.
  intros Hok Hel.
  destruct (wrap_eligible MutableDeep st x Hok Hel)
    as (a & p1 & h1 & st1 & -> & Hw1 & _ & _ & _ & Hr1 & _).
  pose proof (registry_ok_wrap _ _ _ _ _ Hok Hw1) as Hok1.
  pose proof (eligible_after_wrap _ _ _ _ _ _ Hel Hw1) as Hel1.
  destruct (wrap_eligible MutableShallow st1 _ Hok1 Hel1)
    as (a2 & p2 & h2 & st2 & [= <-] & Hw2 & _ & _ & _ & Hr2 & _).
  pose proof (registry_ok_wrap _ _ _ _ _ Hok1 Hw2) as Hok2.
  pose proof (eligible_after_wrap _ _ _ _ _ _ Hel1 Hw2) as Hel2.
  destruct (wrap_eligible ReadonlyDeep st2 _ Hok2 Hel2)
    as (a3 & p3 & h3 & st3 & [= <-] & Hw3 & _ & _ & _ & Hr3 & _).
  pose proof (registry_ok_wrap _ _ _ _ _ Hok2 Hw3) as Hok3.
  pose proof (eligible_after_wrap _ _ _ _ _ _ Hel2 Hw3) as Hel3.
  destruct (wrap_eligible ReadonlyShallow st3 _ Hok3 Hel3)
    as (a4 & p4 & h4 & st4 & [= <-] & Hw4 & _ & _ & _ & Hr4 & _).
  pose proof (registry_ok_wrap _ _ _ _ _ Hok3 Hw4) as Hok4.
  pose proof (eligible_after_wrap _ _ _ _ _ _ Hel3 Hw4) as Hel4.
  assert (weakMap st4 ReactiveMap !! a = Some p1) as Hf1.
  { eapply registry_persist_wrap; [|exact Hw4].
    eapply registry_persist_wrap; [|exact Hw3].
    eapply registry_persist_wrap; [|exact Hw2]. done. }
  assert (weakMap st4 ShallowReactiveMap !! a = Some p2) as Hf2.
  { eapply registry_persist_wrap; [|exact Hw4].
    eapply registry_persist_wrap; [|exact Hw3]. done. }
  assert (weakMap st4 ReadonlyMap !! a = Some p3) as Hf3.
  { eapply registry_persist_wrap; [|exact Hw4]. done. }
  assert (weakMap st4 ShallowReadonlyMap !! a = Some p4) as Hf4 by done.
  assert (∀ m p, weakMap st4 (modeMap m) !! a = Some p →
            wrap m st4 (VRef a) = Normal (VRef p, st4)) as Hagain.
  { intros m p Hget. destruct Hel4 as (Hobj & _ & Hraw & Hro).
    rewrite wrap_unfold.
    assert (factory m st4 (VRef a) = Normal (VRef p, st4)) as ->.
    { apply createReactiveObject_eq. eapply fo_existing; eauto. by left. }
    destruct m; try done. by rewrite Hro. }
  exists a, p1, p2, p3, p4, st1, st2, st3, st4.
  split_and!; try done.
  - assert (∀ pm pm' p p', weakMap st4 pm !! a = Some p →
              weakMap st4 pm' !! a = Some p' → pm ≠ pm' → p ≠ p') as Hne.
    { intros pm pm' p p' H1 H2 Hpm ->.
      by destruct (registry_injective _ _ _ _ _ _ Hok4 H1 H2). }
    repeat constructor; rewrite ?elem_of_cons, ?elem_of_nil.
    + intros [->|[->|[->|[]]]].
      * by eapply (Hne ReactiveMap ShallowReactiveMap).
      * by eapply (Hne ReactiveMap ReadonlyMap).
      * by eapply (Hne ReactiveMap ShallowReadonlyMap).
    + intros [->|[->|[]]].
      * by eapply (Hne ShallowReactiveMap ReadonlyMap).
      * by eapply (Hne ShallowReactiveMap ShallowReadonlyMap).
    + intros [->|[]]. by eapply (Hne ReadonlyMap ShallowReadonlyMap).
    + intros [].
  - by apply (Hagain MutableDeep).
  - by apply (Hagain MutableShallow).
  - by apply (Hagain ReadonlyDeep).
  - by apply (Hagain ReadonlyShallow).
Qed.

Lemma four_modes_four_wrappers_witness :
  registry_ok counterState ∧ eligible counterState (VRef 0)
  ∧ ∃ a p1 p2 p3 p4 st1 st2 st3 st4,
      VRef 0 = VRef a
      ∧ reactive counterState (VRef 0) = Normal (VRef p1, st1)
      ∧ shallowReactive st1 (VRef 0) = Normal (VRef p2, st2)
      ∧ readonly st2 (VRef 0) = Normal (VRef p3, st3)
      ∧ shallowReadonly st3 (VRef 0) = Normal (VRef p4, st4)
      ∧ NoDup [p1; p2; p3; p4]
      ∧ reactiveMap st4 !! a = Some p1
      ∧ shallowReactiveMap st4 !! a = Some p2
      ∧ readonlyMap st4 !! a = Some p3
      ∧ shallowReadonlyMap st4 !! a = Some p4
      ∧ reactive st4 (VRef 0) = Normal (VRef p1, st4)
      ∧ shallowReactive st4 (VRef 0) = Normal (VRef p2, st4)
      ∧ readonly st4 (VRef 0) = Normal (VRef p3, st4)
      ∧ shallowReadonly st4 (VRef 0) = Normal (VRef p4, st4).
Proof.
  split; [exact registry_ok_counterState|].
  split; [exact eligible_counterState|].
  exact (four_modes_four_wrappers counterState (VRef 0)
           registry_ok_counterState eligible_counterState).
Defined.

(** ** The predicates on what the constructors return *)



(** ** toRaw after any constructor *)

(** X10. No constructor changes what [toRaw] finds.  For every value whose
    chain of raw flags ends at [r], and every one of the four modes, the
    constructor returns a value whose chain ends at the same [r], and [toRaw]
    of it is [r]: on a plain value, on a wrapper, and on a wrapper of a
    wrapper alike. *)
Theorem toRaw_after_wrap (m : Mode) (st : State) (v r : Value) :
  registry_ok st → RawChain st v r →
  ∃ w st1,
    wrap m st v = Normal (w, st1)
    ∧ RawChain st1 w r
    ∧ ∃ n, ∀ fuel, n ≤ fuel → toRaw fuel st1 w = Some (Normal r).
Proof.
  intros Hok Hchain.
  destruct (wrap_normal m st v) as (w & st1 & Hw).
  pose proof (wrap_RawChain _ _ _ _ _ _ Hok Hchain Hw) as Hchain1.
  exists w, st1. split_and!; try done. by apply toRaw_chain.
Qed.

Lemma toRaw_after_wrap_witness :
  registry_ok reactiveCounterState
  ∧ RawChain reactiveCounterState (VRef 1) (VRef 0)
  ∧ ∃ w st1,
      wrap ReadonlyShallow reactiveCounterState (VRef 1) = Normal (w, st1)
      ∧ RawChain st1 w (VRef 0)
      ∧ ∃ n, ∀ fuel, n ≤ fuel → toRaw fuel st1 w = Some (Normal (VRef 0)).
Proof.
  assert (RawChain reactiveCounterState (VRef 1) (VRef 0)) as Hchain.
  { apply rc_step; [reflexivity|]. apply rc_end; [simpl; lia|reflexivity]. }
  split; [exact registry_ok_reactiveCounterState|].
  split; [exact Hchain|].
  exact (toRaw_after_wrap ReadonlyShallow reactiveCounterState (VRef 1) (VRef 0)
           registry_ok_reactiveCounterState Hchain).
Defined.

(** ** markRaw *)

(** X2. [markRaw] on an object returns that object, and a second [markRaw]
    changes nothing more.  It touches the skip property only: the heap keeps
    its size, every proxy stays the proxy it was, every other key of every
    object reads as before, extensibility is as before and the registries are
    untouched. *)
Theorem markRaw_idempotent_and_local (st : State) (a : loc) :
  ∃ st1,
    markRaw st (VRef a) = Normal (VRef a, st1)
    ∧ markRaw st1 (VRef a) = Normal (VRef a, st1)
    ∧ length (heap st1) = length (heap st)
    ∧ (∀ pm, weakMap st1 pm = weakMap st pm)
    ∧ (∀ p t hd, objAt (heap st) p = Some (ProxyObj t hd) →
                 objAt (heap st1) p = Some (ProxyObj t hd))
    ∧ (∀ b key, key ≠ SKIP → getProp (heap st1) b key = getProp (heap st) b key)
    ∧ (∀ b, isExtensible st1 (VRef b) = isExtensible st (VRef b)).
Proof.
  unfold markRaw at 1. unfold hasOwn, def, isExtensible at 1.
  destruct (ordinaryOf (heap st) a) as [[r o]|] eqn:Hord; cbn.
  2:{ exists st. split_and!; try done.
      unfold markRaw, hasOwn, isExtensible. by rewrite Hord. }
  case_bool_decide as Hown; cbn.
  { exists st. split_and!; try done.
    unfold markRaw, hasOwn. rewrite Hord. cbn. by rewrite bool_decide_eq_true_2. }
  destruct (extensible o) eqn:Hext; cbn.
  2:{ exists st. split_and!; try done.
      unfold markRaw, hasOwn, isExtensible. rewrite Hord, Hext. cbn.
      by rewrite bool_decide_eq_false_2. }
  eexists. split; [done|]. split_and!.
  - unfold markRaw, hasOwn. cbn [heap withHeap].
    rewrite ordinaryOf_defineOwn, Hord, Nat.eqb_refl. cbn.
    rewrite bool_decide_eq_true_2; [done|]. by rewrite lookup_insert_eq.
  - cbn. apply length_defineOwn.
  - intros pm. apply weakMap_withHeap.
  - intros p t hd. cbn. apply objAt_defineOwn_proxy.
  - intros b key Hkey. cbn. by apply getProp_defineOwn_other.
  - intros b. cbn [isExtensible heap withHeap]. rewrite ordinaryOf_defineOwn.
    destruct (ordinaryOf (heap st) b) as [[rb ob]|]; [|done].
    rewrite Hord. by destruct (Nat.eqb rb r).
Qed.

Lemma markRaw_idempotent_and_local_witness :
  ∃ st1,
    markRaw reactiveCounterState (VRef 1) = Normal (VRef 1, st1)
    ∧ markRaw st1 (VRef 1) = Normal (VRef 1, st1)
    ∧ getProp (heap st1) 0 "count" = VNum 0
    ∧ reactiveMap st1 = reactiveMap reactiveCounterState.
Proof.
  destruct (markRaw_idempotent_and_local reactiveCounterState 1)
    as (st1 & H1 & H2 & _ & Hreg & _ & Hkeys & _).
  exists st1. split; [exact H1|]. split; [exact H2|]. split.
  - exact (Hkeys 0 "count" ltac:(discriminate)).
  - exact (Hreg ReactiveMap).
Defined.

(** ** How deep wrappers nest *)

Lemma layered_empty : layered emptyState.
Proof. intros p t hd. discriminate. Qed.

Lemma layered_alloc st o : layered st → layered (alloc st (Ordinary o)).2.
Proof.
  intros Hlay p t hd. unfold alloc. cbn [snd heap withHeap].
  destruct (decide (p = length (heap st))) as [->|Hne].
  { rewrite objAt_head. discriminate. }
  intros Hobj. assert (p < length (heap st)) as Hlt.
  { apply objAt_lt in Hobj. simpl in Hobj. lia. }
  rewrite objAt_older in Hobj by done.
  destruct (Hlay _ _ _ Hobj) as [Htp Ht]. split; [done|].
  rewrite objAt_older by lia. done.
Qed.

Lemma layered_wrap m st v w st' :
  layered st → wrap m st v = Normal (w, st') → layered st'.
Proof.
  intros Hlay. rewrite wrap_unfold.
  assert (factory m st v = Normal (w, st') → layered st') as Hfac.
  { intros Hf. destruct (factory_outcome m st v) as (w0 & st0 & Hf0 & Hout).
    rewrite Hf in Hf0. injection Hf0 as <- <-.
    destruct Hout as [| | | |a tt Heq Hobj Hpro _ _ _]; try done.
    subst v.
    set (hd := if bool_decide (tt = COLLECTION) then _ else _).
    assert (handlerReadonly hd = modeReadonly m) as Hhd.
    { apply handlerMap_mode, handlerMap_modeHandlers. }
    apply isObject_lt in Hobj.
    intros p t hd'. rewrite heap_registered.
    destruct (decide (p = length (heap st))) as [->|Hne].
    - rewrite objAt_head. intros [= <- <-]. split; [done|].
      rewrite objAt_older by done.
      destruct (objAt_is_Some _ _ Hobj) as [o Ho]. rewrite Ho.
      destruct o as [o|t' hd'']; [done|].
      destruct (getProp_proxy_flags _ _ _ _ Ho) as (Hraw & Hisr & _).
      destruct Hpro as [Hpro|[Hro Hpro]].
      + by rewrite Hraw in Hpro.
      + rewrite Hisr in Hpro. simpl in Hpro.
        split; [congruence|]. by destruct (handlerReadonly hd'').
    - intros Ho. assert (p < length (heap st)) as Hlt.
      { apply objAt_lt in Ho. simpl in Ho. lia. }
      rewrite objAt_older in Ho by done.
      destruct (Hlay _ _ _ Ho) as [Htp Ht]. split; [done|].
      rewrite objAt_older by lia. done. }
  destruct m; try done.
  destruct (carries st v IS_READONLY); [|done]. by intros [= <- <-].
Qed.

Lemma layered_markRaw st v w st' :
  layered st → markRaw st v = Normal (w, st') → layered st'.
Proof.
  intros Hlay Hm. destruct (markRaw_state _ _ _ _ Hm) as [->|[b ->]]; [done|].
  intros p t hd. cbn [heap withHeap]. rewrite !objAt_defineOwn.
  destruct (ordinaryOf (heap st) b) as [[r o]|] eqn:Hord; [|apply Hlay].
  apply ordinaryOf_inv in Hord as (_ & _ & Hr & _).
  destruct (Nat.eqb_spec p r) as [->|]; [discriminate|].
  intros Ho. destruct (Hlay _ _ _ Ho) as [Htp Ht]. split; [done|].
  by destruct (Nat.eqb_spec t r).
Qed.

Lemma layered_run calls st : layered st → layered (run calls st).
Proof.
  revert st. induction calls as [|c calls IH]; intros st Hlay; [done|].
  apply IH. unfold step.
  destruct (exec c st) as [[w st']|e] eqn:Hexec; [|done].
  destruct c as [m v|v|v|v]; cbn [exec] in Hexec.
  - by eapply layered_wrap.
  - by eapply layered_markRaw.
  - unfold toReactive in Hexec. destruct (isObject st v).
    + by eapply (layered_wrap MutableDeep).
    + by injection Hexec as _ <-.
  - unfold toReadonly in Hexec. destruct (isObject st v).
    + by eapply (layered_wrap ReadonlyDeep).
    + by injection Hexec as _ <-.
Qed.

(** X5. Wrappers nest at most two deep, and in one way only.  Starting from
    a state in which this holds (a heap without proxies, for one), after any
    calls into the core every proxy is built over an ordinary object, or it is
    a readonly proxy over a mutable proxy that is itself built over an ordinary
    object.  The factory never wraps a readonly wrapper and never wraps a
    wrapper in a mutable mode. *)
Theorem wrappers_nest_at_most_twice (st : State) (calls : list Call)
    (p t : loc) (hd : ProxyHandler) :
  layered st →
  objAt (heap (run calls st)) p = Some (ProxyObj t hd) →
  (∃ o, objAt (heap (run calls st)) t = Some (Ordinary o))
  ∨ (handlerReadonly hd = true
     ∧ ∃ t' hd' o,
         objAt (heap (run calls st)) t = Some (ProxyObj t' hd')
         ∧ handlerReadonly hd' = false
         ∧ objAt (heap (run calls st)) t' = Some (Ordinary o)).
Proof.
  intros Hlay Hp. apply (layered_run calls) in Hlay.
  destruct (Hlay _ _ _ Hp) as [_ Ht].
  destruct (objAt (heap (run calls st)) t) as [[o|t' hd']|] eqn:Hobjt; [eauto| |done].
  right. destruct Ht as [Hro Hmut]. split; [done|].
  destruct (Hlay _ _ _ Hobjt) as [_ Ht'].
  destruct (objAt (heap (run calls st)) t') as [[o|t'' hd'']|] eqn:Hobjt'; [|..|done].
  - by exists t', hd', o.
  - destruct Ht' as [Hcontra _]. congruence.
Qed.

Lemma layered_counterState : layered counterState.
Proof. apply layered_alloc, layered_empty. Qed.

Lemma wrappers_nest_at_most_twice_witness :
  layered counterState
  ∧ objAt (heap (run [CallWrap MutableDeep (VRef 0); CallWrap ReadonlyDeep (VRef 1)]
                   counterState)) 2
    = Some (ProxyObj 1 readonlyHandlers)
  ∧ ((∃ o, objAt (heap (run [CallWrap MutableDeep (VRef 0); CallWrap ReadonlyDeep (VRef 1)]
                          counterState)) 1 = Some (Ordinary o))
     ∨ (handlerReadonly readonlyHandlers = true
        ∧ ∃ t' hd' o,
            objAt (heap (run [CallWrap MutableDeep (VRef 0); CallWrap ReadonlyDeep (VRef 1)]
                           counterState)) 1 = Some (ProxyObj t' hd')
            ∧ handlerReadonly hd' = false
            ∧ objAt (heap (run [CallWrap MutableDeep (VRef 0); CallWrap ReadonlyDeep (VRef 1)]
                             counterState)) t' = Some (Ordinary o))).
Proof.
  split; [exact layered_counterState|]. split; [reflexivity|].
  exact (wrappers_nest_at_most_twice counterState
           [CallWrap MutableDeep (VRef 0); CallWrap ReadonlyDeep (VRef 1)]
           2 1 readonlyHandlers layered_counterState eq_refl).
Defined.

(** ** Which handlers a fresh wrapper gets *)

(** X6. For an object-like target that is no wrapper, carries no skip flag,
    is extensible and has no entry in the registry, the factory decides by the
    kind alone: for Object and Array it builds the proxy with the base
    handlers it was given, for Map, Set, WeakMap and WeakSet with the
    collection handlers, registering it in both cases; for every other kind it
    builds nothing and returns the target. *)
Theorem handlers_chosen_by_kind (st : State) (a : loc) (isReadonly : bool)
    (baseHandlers collectionHandlers : ProxyHandler) (proxyMap : ProxyMap) :
  isObject st (VRef a) = true →
  carries st (VRef a) RAW = false →
  carries st (VRef a) SKIP = false →
  isExtensible st (VRef a) = true →
  weakMap st proxyMap !! a = None →
  let kind := toRawType st (VRef a) in
  let result :=
    createReactiveObject st (VRef a) isReadonly baseHandlers collectionHandlers proxyMap in
  (kind = "Object" ∨ kind = "Array" →
   result = Normal (VRef (length (heap st)), registered st a baseHandlers proxyMap))
  ∧ (kind = "Map" ∨ kind = "Set" ∨ kind = "WeakMap" ∨ kind = "WeakSet" →
     result = Normal (VRef (length (heap st)), registered st a collectionHandlers proxyMap))
  ∧ (¬ (kind = "Object" ∨ kind = "Array" ∨ kind = "Map" ∨ kind = "Set"
        ∨ kind = "WeakMap" ∨ kind = "WeakSet") →
     result = Normal (VRef a, st)).
Proof.
  intros Hobj Hraw Hskip Hext Hget kind result.
  assert (getTargetType st (VRef a) = Normal (targetTypeMap kind)) as Hclass.
  { rewrite getTargetType_ref. cbn [carries] in Hskip. by rewrite Hskip, Hext. }
  assert (proceeds st a isReadonly) as Hpro by by left.
  pose proof (targetTypeMap_COMMON kind) as Hcommon.
  pose proof (targetTypeMap_COLLECTION kind) as Hcoll.
  subst result. split_and!.
  - intros Hk. apply Hcommon in Hk.
    apply createReactiveObject_eq.
    pose proof (fo_new st (VRef a) isReadonly baseHandlers collectionHandlers
                  proxyMap a COMMON eq_refl Hobj Hpro Hget) as Hnew.
    rewrite Hk in Hclass. by apply Hnew.
  - intros Hk. apply Hcoll in Hk.
    apply createReactiveObject_eq.
    pose proof (fo_new st (VRef a) isReadonly baseHandlers collectionHandlers
                  proxyMap a COLLECTION eq_refl Hobj Hpro Hget) as Hnew.
    rewrite Hk in Hclass. by apply Hnew.
  - intros Hk. apply createReactiveObject_eq. eapply fo_invalid; eauto.
    rewrite Hclass. destruct (targetTypeMap kind); [done|..].
    + destruct Hk. destruct Hcommon as [Hc _]. destruct (Hc eq_refl); auto.
    + destruct Hk. destruct Hcoll as [Hc _].
      destruct (Hc eq_refl) as [?|[?|[?|?]]]; auto 7.
Qed.

Lemma handlers_chosen_by_kind_witness :
  createReactiveObject kindsState (VRef 0) true
    shallowReadonlyHandlers shallowReadonlyCollectionHandlers ShallowReadonlyMap
  = Normal (VRef 2,
            registered kindsState 0 shallowReadonlyCollectionHandlers ShallowReadonlyMap)
  ∧ createReactiveObject kindsState (VRef 1) false
      mutableHandlers mutableCollectionHandlers ReactiveMap
    = Normal (VRef 1, kindsState).
Proof.
  split.
  - refine (proj1 (proj2 (handlers_chosen_by_kind kindsState 0 true
              shallowReadonlyHandlers shallowReadonlyCollectionHandlers
              ShallowReadonlyMap eq_refl eq_refl eq_refl eq_refl eq_refl)) _).
    right. left. reflexivity.
  - refine (proj2 (proj2 (handlers_chosen_by_kind kindsState 1 false
              mutableHandlers mutableCollectionHandlers
              ReactiveMap eq_refl eq_refl eq_refl eq_refl eq_refl)) _).
    cbn. intros [H|[H|[H|[H|[H|H]]]]]; discriminate.
Defined.

(** ** Two readonly views of one object *)

Lemma readonly_over_mutable_wrapper m st p a hp :
  registry_ok st → modeReadonly m = true →
  objAt (heap st) p = Some (ProxyObj a hp) → handlerReadonly hp = false → a < p →
  isObject st (VRef a) = true → getTargetType st (VRef a) ≠ Normal INVALID →
  ∃ q st1,
    wrap m st (VRef p) = Normal (VRef q, st1)
    ∧ weakMap st1 (modeMap m) !! p = Some q.
Proof.
  intros Hok Hm Hp Hhp Hap Hobj Hclass.
  destruct (proxy_classified_as_target _ _ _ _ Hp Hap) as [Hpobj Hpclass].
  destruct (carries_proxy _ _ _ _ Hp) as (Hraw & Hisr & _).
  rewrite Hhp in Hisr. cbn [carries negb] in Hraw, Hisr.
  assert (wrap m st (VRef p) = factory m st (VRef p)) as ->.
  { rewrite wrap_unfold. by destruct m. }
  destruct (factory_outcome m st (VRef p)) as (w & st1 & Hf & Hout).
  rewrite Hf.
  destruct Hout as [Hno|a' [= <-] _ _ [Hnot|Hnot]|a' e [= <-] _ _ Hget
                   |a' [= <-] _ _ _ Htt|a' tt [= <-] _ _ Hget _ _];
    try congruence.
  - by exists e, st.
  - eexists _, _. split; [done|].
    by rewrite weakMap_registered, decide_True, lookup_insert_eq.
Qed.

(** X11. An object can have two readonly views.  For an eligible [x],
    [readonly(reactive(x))] and [readonly(x)] are different wrappers, both
    different from [reactive(x)]: the first reads through the reactive wrapper
    (its raw value is [reactive(x)]), the second reads [x] directly (its raw
    value is [x]).  [toRaw] of either is [x]. *)
Theorem two_readonly_views (st : State) (x : Value) :
  registry_ok st → eligible st x →
  ∃ a p q1 q2 st1 st2 st3,
    x = VRef a
    ∧ reactive st x = Normal (VRef p, st1)
    ∧ readonly st1 (VRef p) = Normal (VRef q1, st2)
    ∧ readonly st2 x = Normal (VRef q2, st3)
    ∧ q1 ≠ q2 ∧ q1 ≠ p ∧ q2 ≠ p
    ∧ getV st3 (VRef q1) RAW = Normal (VRef p)
    ∧ getV st3 (VRef q2) RAW = Normal x
    ∧ (∃ n, ∀ fuel, n ≤ fuel →
         toRaw fuel st3 (VRef q1) = Some (Normal x)
         ∧ toRaw fuel st3 (VRef q2) = Some (Normal x)).
Proof.
  intros Hok Hel.
  destruct (wrap_eligible MutableDeep st x Hok Hel)
    as (a & p & hp & st1 & -> & Hw1 & Hap & Hp & Hhp & Hr1 & _).
  pose proof (registry_ok_wrap _ _ _ _ _ Hok Hw1) as Hok1.
  pose proof (eligible_after_wrap _ _ _ _ _ _ Hel Hw1) as Hel1.
  destruct (handlerMap_mode hp MutableDeep Hhp) as [Hhpro _]. cbn in Hhpro.
  destruct Hel1 as (Hobj1 & Hclass1 & Hraw1 & Hro1).
  destruct (readonly_over_mutable_wrapper ReadonlyDeep st1 p a hp
              Hok1 eq_refl Hp Hhpro Hap Hobj1 Hclass1)
    as (q1 & st2 & Hw2 & Hr2).
  pose proof (registry_ok_wrap _ _ _ _ _ Hok1 Hw2) as Hok2.
  assert (eligible st2 (VRef a)) as Hel2.
  { eapply eligible_after_wrap; [|exact Hw2]. by split_and!. }
  destruct (wrap_eligible ReadonlyDeep st2 _ Hok2 Hel2)
    as (a' & q2 & hq2 & st3 & [= <-] & Hw3 & _ & _ & _ & Hr3 & _).
  pose proof (registry_ok_wrap _ _ _ _ _ Hok2 Hw3) as Hok3.
  pose proof (eligible_after_wrap _ _ _ _ _ _ Hel2 Hw3) as Hel3.
  assert (weakMap st3 ReactiveMap !! a = Some p) as Hf1.
  { eapply registry_persist_wrap; [|exact Hw3].
    eapply registry_persist_wrap; [|exact Hw2]. done. }
  assert (weakMap st3 ReadonlyMap !! p = Some q1) as Hf2.
  { eapply registry_persist_wrap; [|exact Hw3]. done. }
  cbn [modeMap] in Hr3.
  destruct (Hok3 _ _ _ Hf1) as (h1 & Hobjp & _ & _).
  destruct (Hok3 _ _ _ Hf2) as (h2 & Hobjq1 & _ & Hpq1).
  destruct (Hok3 _ _ _ Hr3) as (h3 & Hobjq2 & _ & Haq2).
  assert (RawChain st3 (VRef a) (VRef a)) as Hchain.
  { destruct Hel3 as (Hobj3 & _ & Hraw3 & _).
    apply rc_end; [by apply isObject_lt|done]. }
  assert (RawChain st3 (VRef q1) (VRef a)) as Hchain1.
  { eapply RawChain_proxy; [exact Hobjq1|]. by eapply RawChain_proxy. }
  assert (RawChain st3 (VRef q2) (VRef a)) as Hchain2.
  { by eapply RawChain_proxy. }
  exists a, p, q1, q2, st1, st2, st3.
  change (wrap MutableDeep st (VRef a)) with (reactive st (VRef a)) in Hw1.
  change (wrap ReadonlyDeep st1 (VRef p)) with (readonly st1 (VRef p)) in Hw2.
  change (wrap ReadonlyDeep st2 (VRef a)) with (readonly st2 (VRef a)) in Hw3.
  split_and!; try done.
  - intros ->.
    destruct (registry_injective _ _ _ _ _ _ Hok3 Hf2 Hr3) as [_ ->]. lia.
  - lia.
  - intros ->.
    by destruct (registry_injective _ _ _ _ _ _ Hok3 Hf1 Hr3) as [? _].
  - cbn [getV]. by destruct (getProp_proxy_flags _ _ _ _ Hobjq1) as (-> & _).
  - cbn [getV]. by destruct (getProp_proxy_flags _ _ _ _ Hobjq2) as (-> & _).
  - destruct (toRaw_chain _ _ _ Hchain1) as [n1 H1].
    destruct (toRaw_chain _ _ _ Hchain2) as [n2 H2].
    exists (n1 + n2). intros fuel Hle. split; [apply H1|apply H2]; lia.
Qed.

Lemma two_readonly_views_witness :
  registry_ok counterState ∧ eligible counterState (VRef 0)
  ∧ ∃ a p q1 q2 st1 st2 st3,
      VRef 0 = VRef a
      ∧ reactive counterState (VRef 0) = Normal (VRef p, st1)
      ∧ readonly st1 (VRef p) = Normal (VRef q1, st2)
      ∧ readonly st2 (VRef 0) = Normal (VRef q2, st3)
      ∧ q1 ≠ q2 ∧ q1 ≠ p ∧ q2 ≠ p
      ∧ getV st3 (VRef q1) RAW = Normal (VRef p)
      ∧ getV st3 (VRef q2) RAW = Normal (VRef 0)
      ∧ (∃ n, ∀ fuel, n ≤ fuel →
           toRaw fuel st3 (VRef q1) = Some (Normal (VRef 0))
           ∧ toRaw fuel st3 (VRef q2) = Some (Normal (VRef 0))).
Proof.
  split; [exact registry_ok_counterState|].
  split; [exact eligible_counterState|].
  exact (two_readonly_views counterState (VRef 0)
           registry_ok_counterState eligible_counterState).
Defined.

(** ** How deep toRaw and isReactive go *)

Lemma ordinary_depth st a o :
  genuine st → objAt (heap st) a = Some (Ordinary o) →
  (∀ fuel, toRaw (S fuel) st (VRef a) = Some (Normal (VRef a)))
  ∧ (∀ fuel, ∃ b, isReactive (S (S fuel)) st (VRef a) = Some (Normal b)).
Proof.
  intros Hgen Hobj. pose proof (Hgen _ _ Hobj) as Hraw. cbn in Hraw. split.
  - intros fuel. by rewrite toRaw_S, Hraw.
  - intros fuel. rewrite isReactive_S.
    destruct (truthy (getProp (heap st) a IS_READONLY)); [|by eauto].
    rewrite isReactive_S.
    destruct (getProp (heap st) a RAW); eauto. discriminate.
Qed.

(** X13. In a program that never writes the reserved keys itself, the two
    recursive functions go three calls deep at most: starting from a heap in
    which only wrappers carry the raw flag and wrappers nest as the factory
    nests them, after any calls into the core [toRaw] and [isReactive] return
    on every value within three nested calls, and [toRaw] returns a value that
    is no wrapper. *)
Theorem recursion_three_deep (st : State) (calls : list Call) (v : Value) :
  genuine st → layered st → valid (run calls st) v →
  ∃ r b,
    toRaw 3 (run calls st) v = Some (Normal r)
    ∧ isProxy (run calls st) r = Normal false
    ∧ isReactive 3 (run calls st) v = Some (Normal b).
Proof.
  intros Hgen Hlay Hvalid.
  apply (genuine_run calls) in Hgen. apply (layered_run calls) in Hlay.
  set (st' := run calls st) in *.
  destruct v as [| | | | |p].
  1-5: eexists _, _; rewrite toRaw_S, isReactive_S, isProxy_carries; done.
  destruct (objAt_is_Some _ _ Hvalid) as [o Hp]. destruct o as [o|t hd].
  { destruct (ordinary_depth _ _ _ Hgen Hp) as [Hraw Hreact].
    destruct (Hreact 1) as [b Hb].
    exists (VRef p), b. rewrite Hraw, Hb, isProxy_carries.
    pose proof (Hgen _ _ Hp) as Hc. cbn in Hc. cbn [carries]. by rewrite Hc. }
  destruct (getProp_proxy_flags _ _ _ _ Hp) as (Hpraw & Hpr & Hpro & _).
  destruct (Hlay _ _ _ Hp) as [_ Ht].
  destruct (objAt (heap st') t) as [[o|t' hd']|] eqn:Hobjt; [| |done].
  - destruct (ordinary_depth _ _ _ Hgen Hobjt) as [Hraw Hreact].
    destruct (Hreact 0) as [b Hb].
    pose proof (Hgen _ _ Hobjt) as Hc. cbn in Hc.
    exists (VRef t), (if handlerReadonly hd then b else true).
    rewrite toRaw_S, Hpraw, Hraw, isProxy_carries.
    cbn [truthy carries]. rewrite Hc. split_and!; try done.
    rewrite isReactive_S, Hpro, Hpraw, Hpr. cbn [truthy].
    destruct (handlerReadonly hd); [exact Hb|done].
  - destruct Ht as [Hro Hmut].
    destruct (getProp_proxy_flags _ _ _ _ Hobjt) as (Htraw & Htr & Htro & _).
    destruct (Hlay _ _ _ Hobjt) as [_ Ht'].
    destruct (objAt (heap st') t') as [[o|t'' hd'']|] eqn:Hobjt'; [| |done].
    2:{ destruct Ht' as [Hcontra _]. congruence. }
    destruct (ordinary_depth _ _ _ Hgen Hobjt') as [Hraw _].
    pose proof (Hgen _ _ Hobjt') as Hc. cbn in Hc.
    exists (VRef t'). eexists.
    rewrite toRaw_S, Hpraw. cbn [truthy].
    rewrite toRaw_S, Htraw. cbn [truthy]. rewrite Hraw, isProxy_carries.
    cbn [carries]. rewrite Hc. split_and!; try done.
    rewrite isReactive_S, Hpro, Hro, Hpraw. cbn [truthy].
    rewrite isReactive_S, Htro, Hmut. cbn [truthy]. done.
Qed.

Lemma genuine_counterState : genuine counterState.
Proof. apply genuine_alloc; [apply genuine_empty|reflexivity]. Qed.

Lemma recursion_three_deep_witness :
  ∃ r b,
    toRaw 3 (run [CallWrap MutableDeep (VRef 0); CallWrap ReadonlyDeep (VRef 1)]
               counterState) (VRef 2) = Some (Normal r)
    ∧ isProxy (run [CallWrap MutableDeep (VRef 0); CallWrap ReadonlyDeep (VRef 1)]
                 counterState) r = Normal false
    ∧ isReactive 3 (run [CallWrap MutableDeep (VRef 0); CallWrap ReadonlyDeep (VRef 1)]
                      counterState) (VRef 2) = Some (Normal b).
Proof.
  refine (recursion_three_deep counterState
            [CallWrap MutableDeep (VRef 0); CallWrap ReadonlyDeep (VRef 1)] (VRef 2)
            genuine_counterState layered_counterState _).
  vm_compute. lia.
Defined.
